(** * Solid device backends: UDisks2 storage access and UPower device

    A shallow embedding of [StorageAccess] (udisksstorageaccess.cpp) and
    [UPowerDevice] (upowerdevice.cpp).  Member functions become state-passing
    programs over the object's fields; every signal emission, broadcast and
    outgoing D-Bus method call is appended to a trace.  Whatever the code
    reads from the bus, from Qt or from the [Device] helper class is taken
    from an environment record, one snapshot per handler invocation. *)

From Stdlib Require Import ZArith Lia.
From Stdlib.Strings Require Byte.
From stdpp Require Import base option list strings gmap pretty.

Local Open Scope N_scope.

(** ** Qt values *)

(** A [QString] is a sequence of UTF-16 code units; the null and the empty
    string are both [[]] (they compare equal and are both [isEmpty()]). *)
Abbreviation QString := (list N) (only parsing).
Abbreviation QByteArray := (list Byte.byte) (only parsing).

(** [QLatin1String("...")] and string literals: each byte is one code unit. *)
Definition QLatin1String (s : string) : QString :=
  Ascii.N_of_ascii <$> String.list_ascii_of_string s.

Definition isEmpty (s : QString) : bool :=
  match s with [] => true | _ :: _ => false end.

(** [operator==] on [QString]. *)
Definition qstring_eqb (a b : QString) : bool := bool_decide (a = b).

(** [QString::startsWith], case sensitive, for a non-empty needle. *)
Fixpoint startsWith (s needle : QString) {struct needle} : bool :=
  match needle with
  | [] => true
  | n :: needle' =>
      match s with
      | [] => false
      | c :: s' => (c =? n) && startsWith s' needle'
      end
  end.

Global Arguments QLatin1String : simpl never.

(** [QString::number(int)]: decimal digits. *)
Definition QString_number (n : Z) : QString := QLatin1String (pretty n).

(** A [QVariant] is represented by what the code can observe of it: its
    validity and the results of the conversions applied to it. *)
Record QVariant := mkQVariant {
  isValid : bool;
  toUInt : N;
  toBool : bool;
  toString : QString;
  toByteArrayList : list QByteArray;   (* qdbus_cast<QByteArrayList> *)
  toObjectPath : QString               (* value<QDBusObjectPath>().path() *)
}.

(** The default-constructed [QVariant()]. *)
Definition QVariant_null : QVariant :=
  {| isValid := false; toUInt := 0; toBool := false; toString := [];
     toByteArrayList := []; toObjectPath := [] |}.

Definition QVariant_fromUInt (n : N) : QVariant :=
  {| isValid := true; toUInt := n; toBool := negb (n =? 0);
     toString := QLatin1String (pretty n);
     toByteArrayList := []; toObjectPath := [] |}.

Definition QVariant_fromString (s : QString) : QVariant :=
  {| isValid := true; toUInt := 0; toBool := negb (isEmpty s); toString := s;
     toByteArrayList := []; toObjectPath := [] |}.

Definition QVariant_fromByteArrayList (l : list QByteArray) : QVariant :=
  {| isValid := true; toUInt := 0; toBool := false; toString := [];
     toByteArrayList := l; toObjectPath := [] |}.

(** ** Programs over an object's fields, with a trace of effects *)

Definition prog (S E A : Type) : Type := S → A * S * list E.

Global Instance prog_ret {S E} : MRet (prog S E) :=
  λ A a s, (a, s, []).

Global Instance prog_bind {S E} : MBind (prog S E) :=
  λ A B k m s,
    let '(a, s1, t1) := m s in
    let '(b, s2, t2) := k a s1 in
    (b, s2, t1 ++ t2).

Definition get {S E} : prog S E S := λ s, (s, s, []).
Definition modify {S E} (f : S → S) : prog S E unit := λ s, (tt, f s, []).
Definition emit {S E} (e : E) : prog S E unit := λ s, (tt, s, [e]).

Definition result {S E A} (r : A * S * list E) : A := r.1.1.
Definition final {S E A} (r : A * S * list E) : S := r.1.2.
Definition trace {S E A} (r : A * S * list E) : list E := r.2.

(** Number of trace entries satisfying a boolean test. *)
Definition occurrences {E} (p : E → bool) (t : list E) : nat :=
  length (filter (λ e, p e = true) t).

(** ** UPower device (upowerdevice.cpp, upower.h) *)

Module UPower.

Inductive UpDeviceKind :=
| UP_DEVICE_KIND_UNKNOWN
| UP_DEVICE_KIND_LINE_POWER
| UP_DEVICE_KIND_BATTERY
| UP_DEVICE_KIND_UPS
| UP_DEVICE_KIND_MONITOR
| UP_DEVICE_KIND_MOUSE
| UP_DEVICE_KIND_KEYBOARD
| UP_DEVICE_KIND_PDA
| UP_DEVICE_KIND_PHONE
| UP_DEVICE_KIND_MEDIA_PLAYER
| UP_DEVICE_KIND_TABLET
| UP_DEVICE_KIND_COMPUTER
| UP_DEVICE_KIND_GAMING_INPUT
| UP_DEVICE_KIND_LAST.

Global Instance UpDeviceKind_eq_dec : EqDecision UpDeviceKind.
Proof. solve_decision. Defined.

(** The enumerators' values, counted from 0 in declaration order. *)
Definition UpDeviceKind_value (k : UpDeviceKind) : N :=
  match k with
  | UP_DEVICE_KIND_UNKNOWN => 0
  | UP_DEVICE_KIND_LINE_POWER => 1
  | UP_DEVICE_KIND_BATTERY => 2
  | UP_DEVICE_KIND_UPS => 3
  | UP_DEVICE_KIND_MONITOR => 4
  | UP_DEVICE_KIND_MOUSE => 5
  | UP_DEVICE_KIND_KEYBOARD => 6
  | UP_DEVICE_KIND_PDA => 7
  | UP_DEVICE_KIND_PHONE => 8
  | UP_DEVICE_KIND_MEDIA_PLAYER => 9
  | UP_DEVICE_KIND_TABLET => 10
  | UP_DEVICE_KIND_COMPUTER => 11
  | UP_DEVICE_KIND_GAMING_INPUT => 12
  | UP_DEVICE_KIND_LAST => 13
  end.

Definition UpDeviceKinds : list UpDeviceKind :=
  [ UP_DEVICE_KIND_UNKNOWN; UP_DEVICE_KIND_LINE_POWER; UP_DEVICE_KIND_BATTERY;
    UP_DEVICE_KIND_UPS; UP_DEVICE_KIND_MONITOR; UP_DEVICE_KIND_MOUSE;
    UP_DEVICE_KIND_KEYBOARD; UP_DEVICE_KIND_PDA; UP_DEVICE_KIND_PHONE;
    UP_DEVICE_KIND_MEDIA_PLAYER; UP_DEVICE_KIND_TABLET; UP_DEVICE_KIND_COMPUTER;
    UP_DEVICE_KIND_GAMING_INPUT; UP_DEVICE_KIND_LAST ].

(** The case label, if any, that a [switch] on [uptype] selects. *)
Definition case_label (uptype : N) : option UpDeviceKind :=
  List.find (λ k, UpDeviceKind_value k =? uptype) UpDeviceKinds.

(** The [Solid::DeviceInterface::Type] values. *)
Inductive DeviceInterfaceType :=
| Unknown | GenericInterface | Processor | Block | StorageAccess
| StorageDrive | OpticalDrive | StorageVolume | OpticalDisc | Camera
| PortableMediaPlayer | Battery | NetworkShare.

(** What the power service answers while one member function runs. *)
Record Remote := {
  (** reply of [org.freedesktop.DBus.Properties.GetAll], [None] when the
      reply is not valid *)
  GetAll : option (gmap QString QVariant);
  (** [m_device.property(key.toUtf8())] *)
  property : QString → QVariant;
  (** [QDBusReply<void>(m_device.asyncCall("Refresh")).isValid()] *)
  Refresh_isValid : bool
}.

(** The mutable members of a [UPowerDevice]. *)
Record UPowerDevice := {
  m_cache : gmap QString QVariant;
  m_udi : QString
}.

Definition set_cache (c : gmap QString QVariant) (d : UPowerDevice) : UPowerDevice :=
  {| m_cache := c; m_udi := m_udi d |}.

(** Calls sent to the power service, the clearing of the cache, and the
    [changed()] signal. *)
Inductive Effect :=
| Call_GetAll
| Call_property (key : QString)
| Call_Refresh
| Cache_clear
| Emit_changed.

Abbreviation M := (prog UPowerDevice Effect).

Section WithRemote.
Variable r : Remote.

Definition allProperties : M (gmap QString QVariant) :=
  emit Call_GetAll;;
  match GetAll r with
  | Some reply => modify (set_cache reply)
  | None => modify (set_cache ∅)
  end;;
  d ← get;
  mret (m_cache d).

Definition checkCache (key : QString) : M unit :=
  d ← get;
  (if bool_decide (m_cache d = ∅) then allProperties;; mret tt else mret tt);;
  d ← get;
  if bool_decide (is_Some (m_cache d !! key)) then mret tt
  else
    emit (Call_property key);;
    let reply := property r key in
    if isValid reply
    then modify (λ d, set_cache (<[key := reply]> (m_cache d)) d)
    else modify (λ d, set_cache (<[key := QVariant_null]> (m_cache d)) d).

Definition prop (key : QString) : M QVariant :=
  checkCache key;;
  d ← get;
  mret (default QVariant_null (m_cache d !! key)).

Definition propertyExists (key : QString) : M bool :=
  checkCache key;;
  d ← get;
  mret (bool_decide (is_Some (m_cache d !! key))).

Definition queryDeviceInterface (type : DeviceInterfaceType) : M bool :=
  v ← prop (QLatin1String "Type");
  let uptype := toUInt v in
  match type with
  | GenericInterface => mret true
  | Battery =>
      match case_label uptype with
      | Some UP_DEVICE_KIND_BATTERY
      | Some UP_DEVICE_KIND_UPS
      | Some UP_DEVICE_KIND_MOUSE
      | Some UP_DEVICE_KIND_KEYBOARD
      | Some UP_DEVICE_KIND_PDA
      | Some UP_DEVICE_KIND_PHONE
      | Some UP_DEVICE_KIND_GAMING_INPUT => mret true
      | Some UP_DEVICE_KIND_UNKNOWN =>
          p ← prop (QLatin1String "NativePath");
          if startsWith (toString p) (QLatin1String "/org/bluez/")
          then mret true
          else mret false
      | Some UP_DEVICE_KIND_LINE_POWER
      | Some UP_DEVICE_KIND_MONITOR
      | Some UP_DEVICE_KIND_MEDIA_PLAYER
      | Some UP_DEVICE_KIND_TABLET
      | Some UP_DEVICE_KIND_COMPUTER
      | Some UP_DEVICE_KIND_LAST => mret false
      | None => mret false   (* no label: falls through to [default] *)
      end
  | _ => mret false
  end.

Definition slotChanged : M unit :=
  modify (set_cache ∅);;
  emit Cache_clear;;
  emit Emit_changed.

Definition login1Resuming (active : bool) : M unit :=
  if negb active then
    emit Call_Refresh;;
    if Refresh_isValid r then slotChanged else mret tt
  else mret tt.

(** What [createDeviceInterface] hands out: [None] is [nullptr]. *)
Inductive DeviceInterfaceObject :=
| new_GenericInterface
| new_Battery.

(** The constructors [GenericInterface(this)] and [Battery(this)], which
    are not part of these files: each receives the device and may read it
    through [prop]. *)
Variable construct : DeviceInterfaceObject → M unit.

Definition createDeviceInterface (type : DeviceInterfaceType)
  : M (option DeviceInterfaceObject) :=
  supported ← queryDeviceInterface type;
  if negb supported then mret None
  else
    match type with
    | GenericInterface =>
        construct new_GenericInterface;; mret (Some new_GenericInterface)
    | Battery =>
        construct new_Battery;; mret (Some new_Battery)
    | _ => mret None
    end.

(** [tr(sourceText, disambiguation)] and [QString::arg(QString)], which
    belong to Qt and to the installed translations. *)
Variable tr : string → string → QString.
Variable arg : QString → QString → QString.

Definition batteryTechnology : M QString :=
  v ← prop (QLatin1String "Technology");
  let tech := toUInt v in
  mret (match tech with
        | 1 => tr "Lithium Ion" "battery technology"
        | 2 => tr "Lithium Polymer" "battery technology"
        | 3 => tr "Lithium Iron Phosphate" "battery technology"
        | 4 => tr "Lead Acid" "battery technology"
        | 5 => tr "Nickel Cadmium" "battery technology"
        | 6 => tr "Nickel Metal Hydride" "battery technology"
        | _ => tr "Unknown" "battery technology"
        end).

Definition vendor : M QString :=
  v ← prop (QLatin1String "Vendor");
  mret (toString v).

Definition description : M QString :=
  battery ← queryDeviceInterface Battery;
  if (battery : bool) then
    technology ← batteryTechnology;
    mret (arg (tr "%1 Battery" "%1 is battery technology") technology)
  else
    v ← prop (QLatin1String "Model");
    let result := toString v in
    if isEmpty result then vendor else mret result.

Definition icon : M QString :=
  battery ← queryDeviceInterface Battery;
  if (battery : bool) then mret (QLatin1String "battery") else mret [].

Definition product : M QString :=
  v ← prop (QLatin1String "Model");
  let result := toString v in
  if isEmpty result then description else mret result.

(** [UP_DBUS_INTERFACE_DEVICE] of upower.h. *)
Definition UP_DBUS_INTERFACE_DEVICE : QString :=
  QLatin1String "org.freedesktop.UPower" ++ QLatin1String ".Device".

Definition onPropertiesChanged (ifaceName : QString) : M unit :=
  if qstring_eqb ifaceName UP_DBUS_INTERFACE_DEVICE then slotChanged else mret tt.

End WithRemote.

End UPower.

(** ** UDisks2 storage access (udisksstorageaccess.cpp) *)

Module UDisks2.

(** [Solid::ErrorType]. *)
Inductive ErrorType :=
| NoError | UnauthorizedOperation | DeviceBusy | OperationFailed
| UserCanceled | InvalidOption | MissingDriver.

(** The service and interface names of udisks2.h, kept symbolic. *)
Inductive Service := UD2_DBUS_SERVICE.

Inductive Interface :=
| UD2_DBUS_INTERFACE_FILESYSTEM
| UD2_DBUS_INTERFACE_ENCRYPTED
| UD2_DBUS_INTERFACE_DRIVE.

Inductive Timeout := DefaultTimeout | s_unmountTimeout.

Inductive Argument :=
| Arg_QString (s : QString)
| Arg_QVariantMap (m : gmap QString QVariant).

(** [QDBusMessage::createMethodCall(service, path, interface, method)]
    followed by the arguments streamed into it. *)
Record QDBusMessage := createMethodCall {
  msg_service : Service;
  msg_path : QString;
  msg_interface : Interface;
  msg_member : QString;
  msg_arguments : list Argument
}.

(** What the bus, Qt and the [Device] helper answer while one member
    function or slot runs. *)
Record Env := {
  (** [m_device->udi()] *)
  udi : QString;
  (** [m_device->isEncryptedContainer()] *)
  isEncryptedContainer : bool;
  (** [m_device->isMounted()] *)
  isMounted : bool;
  (** [m_device->isOpticalDisc()] *)
  isOpticalDisc : bool;
  (** [m_device->drivePath()] *)
  drivePath : QString;
  (** [m_device->prop(key)] *)
  prop : QString → QVariant;
  (** [Device(path).isMounted()] for a device object made on the spot *)
  Device_isMounted : QString → bool;
  (** [Device(path).prop(key)] for a device object made on the spot *)
  Device_prop : QString → QString → QVariant;
  (** the [node] elements of the Introspect reply on the block-device
      prefix, each with its [name] attribute if it has one; [None] when the
      reply is not valid *)
  Introspect : option (list (option QString));
  (** [QFile::decodeName] *)
  decodeName : QByteArray → QString;
  (** what [callWithCallback] on the system bus returns for a message *)
  callWithCallback : QDBusMessage → Timeout → bool;
  (** validity of the reply to [showPassphraseDialog] *)
  showPassphraseDialog_isValid : bool;
  (** [QDBusConnection::sessionBus().baseService()] *)
  baseService : QString;
  (** [winId()] of [QGuiApplication::focusWindow()], if there is one *)
  focusWindow : option N;
  (** [QCoreApplication::applicationName()] *)
  applicationName : QString;
  (** [m_device->errorToSolidError], [m_device->errorToString] *)
  errorToSolidError : QString → ErrorType;
  errorToString : QString → QString
}.

(** The members of a [StorageAccess], and the function-local static
    counter of [generateReturnObjectPath]. *)
Record StorageAccess := {
  m_setupInProgress : bool;
  m_teardownInProgress : bool;
  m_passphraseRequested : bool;
  m_isAccessible : bool;
  m_lastReturnObject : QString;
  number : Z
}.

Definition set_setupInProgress (b : bool) (s : StorageAccess) : StorageAccess :=
  {| m_setupInProgress := b; m_teardownInProgress := m_teardownInProgress s;
     m_passphraseRequested := m_passphraseRequested s;
     m_isAccessible := m_isAccessible s;
     m_lastReturnObject := m_lastReturnObject s; number := number s |}.

Definition set_teardownInProgress (b : bool) (s : StorageAccess) : StorageAccess :=
  {| m_setupInProgress := m_setupInProgress s; m_teardownInProgress := b;
     m_passphraseRequested := m_passphraseRequested s;
     m_isAccessible := m_isAccessible s;
     m_lastReturnObject := m_lastReturnObject s; number := number s |}.

Definition set_passphraseRequested (b : bool) (s : StorageAccess) : StorageAccess :=
  {| m_setupInProgress := m_setupInProgress s;
     m_teardownInProgress := m_teardownInProgress s;
     m_passphraseRequested := b;
     m_isAccessible := m_isAccessible s;
     m_lastReturnObject := m_lastReturnObject s; number := number s |}.

Definition set_isAccessible (b : bool) (s : StorageAccess) : StorageAccess :=
  {| m_setupInProgress := m_setupInProgress s;
     m_teardownInProgress := m_teardownInProgress s;
     m_passphraseRequested := m_passphraseRequested s;
     m_isAccessible := b;
     m_lastReturnObject := m_lastReturnObject s; number := number s |}.

Definition set_lastReturnObject (p : QString) (s : StorageAccess) : StorageAccess :=
  {| m_setupInProgress := m_setupInProgress s;
     m_teardownInProgress := m_teardownInProgress s;
     m_passphraseRequested := m_passphraseRequested s;
     m_isAccessible := m_isAccessible s;
     m_lastReturnObject := p; number := number s |}.

Definition set_number (n : Z) (s : StorageAccess) : StorageAccess :=
  {| m_setupInProgress := m_setupInProgress s;
     m_teardownInProgress := m_teardownInProgress s;
     m_passphraseRequested := m_passphraseRequested s;
     m_isAccessible := m_isAccessible s;
     m_lastReturnObject := m_lastReturnObject s; number := n |}.

(** Signals emitted, broadcasts made through the device, and method calls
    sent out.  The blocking Introspect round trip and property reads are
    answered by the environment and leave no entry. *)
Inductive Effect :=
| BroadcastActionRequested (action : QString)
| BroadcastActionDone (action : QString) (error : ErrorType) (errorString : QString)
| InvalidateCache
| Emit_accessibilityChanged (accessible : bool) (udi : QString)
| Emit_setupRequested (udi : QString)
| Emit_setupDone (error : ErrorType) (errorString udi : QString)
| Emit_teardownRequested (udi : QString)
| Emit_teardownDone (error : ErrorType) (errorString udi : QString)
| Call_withCallback (msg : QDBusMessage) (timeout : Timeout)
| Call_NoBlock (msg : QDBusMessage)
| RegisterObject (path : QString)
| UnregisterObject (path : QString)
| Call_showPassphraseDialog (udi returnService returnObject : QString)
    (wId : N) (appId : QString).

Abbreviation M := (prog StorageAccess Effect).

(** [int] arithmetic of the atomic counter: two's complement on 32 bits. *)
Definition wrap_int (z : Z) : Z :=
  ((z + 2 ^ 31) mod 2 ^ 32 - 2 ^ 31)%Z.

Definition block_devices_prefix : QString :=
  QLatin1String "/org/freedesktop/UDisks2/block_devices".

(** The test [!drivePath.isEmpty() || drivePath != "/"] of [slotDBusReply]. *)
Definition drivePath_guard (drivePath : QString) : bool :=
  negb (isEmpty drivePath) || negb (qstring_eqb drivePath (QLatin1String "/")).

Section WithEnv.
Variable e : Env.

Definition isLuksDevice : bool := isEncryptedContainer e.

(** The loop of [clearTextPath] over the node list. *)
Fixpoint clearTextPath_nodes (nodeList : list (option QString)) : QString :=
  match nodeList with
  | [] => []
  | Some name :: rest =>
      let udi' := block_devices_prefix ++ QLatin1String "/" ++ name in
      if qstring_eqb (udi e)
           (toObjectPath (Device_prop e udi' (QLatin1String "CryptoBackingDevice")))
      then udi'
      else clearTextPath_nodes rest
  | None :: rest => clearTextPath_nodes rest
  end.

Definition clearTextPath : QString :=
  match Introspect e with
  | Some nodeList => clearTextPath_nodes nodeList
  | None => []
  end.

Definition isAccessible : bool :=
  if isLuksDevice then
    let path := clearTextPath in
    if isEmpty path || qstring_eqb path (QLatin1String "/") then false
    else Device_isMounted e path
  else isMounted e.

(** The [for] loop of [get_shortest], from index 1 on. *)
Fixpoint get_shortest_from (shortest : QString) (rest : list QByteArray) : QString :=
  match rest with
  | [] => shortest
  | b :: rest' =>
      let current := decodeName e b in
      get_shortest_from
        (if (length current <? length shortest)%nat then current else shortest)
        rest'
  end.

Definition get_shortest (mntPoints : list QByteArray) : QString :=
  match mntPoints with
  | [] => []
  | first :: rest => get_shortest_from (decodeName e first) rest
  end.

Definition filePath : QString :=
  if isLuksDevice then
    let path := clearTextPath in
    if isEmpty path || qstring_eqb path (QLatin1String "/") then []
    else get_shortest (toByteArrayList (Device_prop e path (QLatin1String "MountPoints")))
  else get_shortest (toByteArrayList (prop e (QLatin1String "MountPoints"))).

Definition updateCache : M unit :=
  modify (set_isAccessible isAccessible).

Definition checkAccessibility : M unit :=
  s ← get;
  let old_isAccessible := m_isAccessible s in
  updateCache;;
  s ← get;
  if negb (eqb old_isAccessible (m_isAccessible s))
  then emit (Emit_accessibilityChanged (m_isAccessible s) (udi e))
  else mret tt.

(** The object path that [mount] and [unmount] address. *)
Definition target_path : QString :=
  if isLuksDevice then
    let ctPath := clearTextPath in
    if negb (isEmpty ctPath) then ctPath else udi e
  else udi e.

Definition mount : M bool :=
  let path := target_path in
  let options : gmap QString QVariant :=
    if qstring_eqb (toString (prop e (QLatin1String "IdType"))) (QLatin1String "vfat")
    then {[ QLatin1String "options" := QVariant_fromString (QLatin1String "flush") ]}
    else ∅ in
  let msg := createMethodCall UD2_DBUS_SERVICE path UD2_DBUS_INTERFACE_FILESYSTEM
               (QLatin1String "Mount") [Arg_QVariantMap options] in
  emit (Call_withCallback msg DefaultTimeout);;
  mret (callWithCallback e msg DefaultTimeout).

Definition unmount : M bool :=
  let path := target_path in
  let msg := createMethodCall UD2_DBUS_SERVICE path UD2_DBUS_INTERFACE_FILESYSTEM
               (QLatin1String "Unmount") [Arg_QVariantMap ∅] in
  emit (Call_withCallback msg s_unmountTimeout);;
  mret (callWithCallback e msg s_unmountTimeout).

Definition generateReturnObjectPath : M QString :=
  s ← get;
  modify (set_number (wrap_int (number s + 1)));;
  mret (QLatin1String "/org/kde/solid/UDisks2StorageAccess_" ++ QString_number (number s)).

Definition requestPassphrase : M bool :=
  let returnService := baseService e in
  p ← generateReturnObjectPath;
  modify (set_lastReturnObject p);;
  emit (RegisterObject p);;
  let wId := match focusWindow e with
             | Some winId => winId mod 2 ^ 32
             | None => 0
             end in
  emit (Call_showPassphraseDialog (udi e) returnService p wId (applicationName e));;
  modify (set_passphraseRequested (showPassphraseDialog_isValid e));;
  s ← get;
  mret (m_passphraseRequested s).

Definition callCryptoSetup (passphrase : QString) : M unit :=
  let msg := createMethodCall UD2_DBUS_SERVICE (udi e) UD2_DBUS_INTERFACE_ENCRYPTED
               (QLatin1String "Unlock") [Arg_QString passphrase; Arg_QVariantMap ∅] in
  emit (Call_withCallback msg DefaultTimeout).

Definition callCryptoTeardown (actOnParent : bool) : M bool :=
  let path := if actOnParent
              then toObjectPath (prop e (QLatin1String "CryptoBackingDevice"))
              else udi e in
  let msg := createMethodCall UD2_DBUS_SERVICE path UD2_DBUS_INTERFACE_ENCRYPTED
               (QLatin1String "Lock") [Arg_QVariantMap ∅] in
  emit (Call_withCallback msg DefaultTimeout);;
  mret (callWithCallback e msg DefaultTimeout).

Definition passphraseReply (passphrase : QString) : M unit :=
  s ← get;
  if m_passphraseRequested s then
    emit (UnregisterObject (m_lastReturnObject s));;
    modify (set_passphraseRequested false);;
    if negb (isEmpty passphrase) then callCryptoSetup passphrase
    else
      modify (set_setupInProgress false);;
      emit (BroadcastActionDone (QLatin1String "setup") UserCanceled [])
  else mret tt.

Definition setup : M bool :=
  s ← get;
  if m_teardownInProgress s || m_setupInProgress s then mret false
  else
    modify (set_setupInProgress true);;
    emit (BroadcastActionRequested (QLatin1String "setup"));;
    if isEncryptedContainer e && isEmpty clearTextPath
    then requestPassphrase
    else mount.

Definition teardown : M bool :=
  s ← get;
  if m_teardownInProgress s || m_setupInProgress s then mret false
  else
    modify (set_teardownInProgress true);;
    emit (BroadcastActionRequested (QLatin1String "teardown"));;
    unmount.

(** The eject / power-off attempt on the parent drive in [slotDBusReply]. *)
Definition eject_or_powerOff (drivePath : QString) : M unit :=
  let call method :=
    Call_NoBlock (createMethodCall UD2_DBUS_SERVICE drivePath UD2_DBUS_INTERFACE_DRIVE
                    method [Arg_QVariantMap ∅]) in
  if toBool (Device_prop e drivePath (QLatin1String "MediaRemovable"))
     && toBool (Device_prop e drivePath (QLatin1String "MediaAvailable"))
     && negb (isOpticalDisc e)
  then emit (call (QLatin1String "Eject"))
  else if toBool (Device_prop e drivePath (QLatin1String "CanPowerOff"))
          && negb (isOpticalDisc e)
  then emit (call (QLatin1String "PowerOff"))
  else mret tt.

Definition slotDBusReply : M unit :=
  s ← get;
  if m_setupInProgress s then
    if isLuksDevice && negb isAccessible then mount;; mret tt
    else
      modify (set_setupInProgress false);;
      emit InvalidateCache;;
      emit (BroadcastActionDone (QLatin1String "setup") NoError []);;
      checkAccessibility
  else if m_teardownInProgress s then
    let ctPath := clearTextPath in
    if isLuksDevice && negb (isEmpty ctPath) && negb (qstring_eqb ctPath (QLatin1String "/"))
    then callCryptoTeardown false;; mret tt
    else if negb (isEmpty ctPath) && negb (qstring_eqb ctPath (QLatin1String "/"))
    then callCryptoTeardown true;; mret tt
    else
      let drivePath := drivePath e in
      (if drivePath_guard drivePath then eject_or_powerOff drivePath else mret tt);;
      modify (set_teardownInProgress false);;
      emit InvalidateCache;;
      emit (BroadcastActionDone (QLatin1String "teardown") NoError []);;
      checkAccessibility
  else mret tt.

Definition slotDBusError (name message : QString) : M unit :=
  let errorString := errorToString e name ++ QLatin1String ": " ++ message in
  s ← get;
  if m_setupInProgress s then
    modify (set_setupInProgress false);;
    emit (BroadcastActionDone (QLatin1String "setup") (errorToSolidError e name) errorString);;
    checkAccessibility
  else if m_teardownInProgress s then
    modify (set_teardownInProgress false);;
    emit (BroadcastActionDone (QLatin1String "teardown") (errorToSolidError e name) errorString);;
    checkAccessibility
  else mret tt.

(** [isIgnored], with [QDir::homePath()] passed in. *)
Definition isIgnored (homePath : QString) : bool :=
  if toBool (prop e (QLatin1String "HintIgnore")) then true
  else
    let path := filePath in
    let inUserPath :=
      startsWith path (QLatin1String "/media/")
      || startsWith path (QLatin1String "/run/media/")
      || startsWith path homePath in
    negb inUserPath.

(** The slots that [connectDBusSignals] registers for the "setup" and
    "teardown" actions broadcast through the device.  [error] is the [int]
    argument after its cast to [Solid::ErrorType]. *)
Definition slotSetupRequested : M unit :=
  modify (set_setupInProgress true);;
  emit (Emit_setupRequested (udi e)).

Definition slotSetupDone (error : ErrorType) (errorString : QString) : M unit :=
  modify (set_setupInProgress false);;
  checkAccessibility;;
  emit (Emit_setupDone error errorString (udi e)).

Definition slotTeardownRequested : M unit :=
  modify (set_teardownInProgress true);;
  emit (Emit_teardownRequested (udi e)).

Definition slotTeardownDone (error : ErrorType) (errorString : QString) : M unit :=
  modify (set_teardownInProgress false);;
  checkAccessibility;;
  emit (Emit_teardownDone error errorString (udi e)).

End WithEnv.

(** The device's [changed()] signal is connected to [checkAccessibility];
    each notification finds the bus in some state. *)
Fixpoint changed_notifications (es : list Env) : M unit :=
  match es with
  | [] => mret tt
  | e :: es' => checkAccessibility e;; changed_notifications es'
  end.

End UDisks2.

(** ** Trace tests and sample devices *)

Definition is_Call_Refresh (x : UPower.Effect) : bool :=
  match x with UPower.Call_Refresh => true | _ => false end.

Definition is_Cache_clear (x : UPower.Effect) : bool :=
  match x with UPower.Cache_clear => true | _ => false end.

Definition is_Emit_changed (x : UPower.Effect) : bool :=
  match x with UPower.Emit_changed => true | _ => false end.

(** The kinds for which the battery interface is offered outright, and
    those for which it is refused. *)
Definition battery_kinds : list UPower.UpDeviceKind :=
  [ UPower.UP_DEVICE_KIND_BATTERY; UPower.UP_DEVICE_KIND_UPS;
    UPower.UP_DEVICE_KIND_MOUSE; UPower.UP_DEVICE_KIND_KEYBOARD;
    UPower.UP_DEVICE_KIND_PDA; UPower.UP_DEVICE_KIND_PHONE;
    UPower.UP_DEVICE_KIND_GAMING_INPUT ].

Definition non_battery_kinds : list UPower.UpDeviceKind :=
  [ UPower.UP_DEVICE_KIND_LINE_POWER; UPower.UP_DEVICE_KIND_MONITOR;
    UPower.UP_DEVICE_KIND_MEDIA_PLAYER; UPower.UP_DEVICE_KIND_TABLET;
    UPower.UP_DEVICE_KIND_COMPUTER ].

(** A Bluetooth headset as UPower shows it: kind unknown, BlueZ native path. *)
Definition headset_properties : gmap QString QVariant :=
  {[ QLatin1String "Type" := QVariant_fromUInt 0;
     QLatin1String "NativePath" :=
       QVariant_fromString (QLatin1String "/org/bluez/hci0/dev_00_11_22_33_44_55") ]}.

Definition headset_remote : UPower.Remote :=
  {| UPower.GetAll := Some headset_properties;
     UPower.property := λ _, QVariant_null;
     UPower.Refresh_isValid := true |}.

Definition fresh_device : UPower.UPowerDevice :=
  {| UPower.m_cache := ∅;
     UPower.m_udi := QLatin1String "/org/freedesktop/UPower/devices/headset_dev_00" |}.

(** A power service that answers nothing: no valid [GetAll] reply, no
    property under any name, [Refresh] refused. *)
Definition silent_remote : UPower.Remote :=
  {| UPower.GetAll := None;
     UPower.property := λ _, QVariant_null;
     UPower.Refresh_isValid := false |}.

Definition is_storage_call (x : UDisks2.Effect) : bool :=
  match x with
  | UDisks2.Call_withCallback _ _ | UDisks2.Call_NoBlock _ => true
  | _ => false
  end.

Definition is_BroadcastActionDone (x : UDisks2.Effect) : bool :=
  match x with UDisks2.BroadcastActionDone _ _ _ => true | _ => false end.

Definition is_accessibilityChanged (x : UDisks2.Effect) : bool :=
  match x with UDisks2.Emit_accessibilityChanged _ _ => true | _ => false end.

(** The object path of the block device under a node name. *)
Definition block_device_path (name : QString) : QString :=
  UDisks2.block_devices_prefix ++ QLatin1String "/" ++ name.

(** A cleartext sibling is discoverable when the Introspect reply is valid
    and lists a named node whose [CryptoBackingDevice] is this device. *)
Definition has_cleartext_sibling (e : UDisks2.Env) : Prop :=
  ∃ nodeList name,
    UDisks2.Introspect e = Some nodeList ∧ Some name ∈ nodeList ∧
    toObjectPath (UDisks2.Device_prop e (block_device_path name)
                    (QLatin1String "CryptoBackingDevice")) = UDisks2.udi e.

(** The mount points that count for a device: its own, or those of its
    cleartext holder when it is an encrypted container. *)
Definition relevant_mountPoints (e : UDisks2.Env) : list QByteArray :=
  if UDisks2.isEncryptedContainer e
  then toByteArrayList (UDisks2.Device_prop e (UDisks2.clearTextPath e)
                          (QLatin1String "MountPoints"))
  else toByteArrayList (UDisks2.prop e (QLatin1String "MountPoints")).

(** Number of changes of value along [cached, v1, v2, ...]. *)
Fixpoint transitions (cached : bool) (values : list bool) : nat :=
  match values with
  | [] => 0%nat
  | v :: values' => ((if eqb cached v then 0 else 1) + transitions v values')%nat
  end.

Definition bytes (s : string) : QByteArray := String.list_byte_of_string s.

(** Decoding of file names in a Latin-1 locale. *)
Definition decodeLatin1 (b : QByteArray) : QString := Byte.to_N <$> b.

(** A partition [sdb1] next to [sda] and an unnamed node; no device names
    it as its crypto backing device. *)
Definition sample_env (encrypted dialog_ok : bool) (mntPoints : list QByteArray)
  : UDisks2.Env :=
  {| UDisks2.udi := block_device_path (QLatin1String "sdb1");
     UDisks2.isEncryptedContainer := encrypted;
     UDisks2.isMounted := bool_decide (mntPoints ≠ []);
     UDisks2.isOpticalDisc := false;
     UDisks2.drivePath := QLatin1String "/org/freedesktop/UDisks2/drives/Stick";
     UDisks2.prop := λ key,
       if bool_decide (key = QLatin1String "MountPoints")
       then QVariant_fromByteArrayList mntPoints
       else QVariant_null;
     UDisks2.Device_isMounted := λ _, false;
     UDisks2.Device_prop := λ _ _, QVariant_null;
     UDisks2.Introspect := Some [Some (QLatin1String "sda"); None;
                                 Some (QLatin1String "sdb1")];
     UDisks2.decodeName := decodeLatin1;
     UDisks2.callWithCallback := λ _ _, true;
     UDisks2.showPassphraseDialog_isValid := dialog_ok;
     UDisks2.baseService := QLatin1String ":1.42";
     UDisks2.focusWindow := None;
     UDisks2.applicationName := QLatin1String "dolphin";
     UDisks2.errorToSolidError := λ _, UDisks2.OperationFailed;
     UDisks2.errorToString := λ name, name |}.

(** The device of the path-selection example. *)
Definition two_mounts_env : UDisks2.Env :=
  sample_env false true [bytes "/media/foo/bar"; bytes "/run/media/foo"].

(** A locked encrypted container, with and without a reachable prompt. *)
Definition locked_env : UDisks2.Env := sample_env true true [].
Definition locked_no_prompt_env : UDisks2.Env := sample_env true false [].

(** A freshly constructed [StorageAccess] on an unmounted device. *)
Definition idle : UDisks2.StorageAccess :=
  {| UDisks2.m_setupInProgress := false;
     UDisks2.m_teardownInProgress := false;
     UDisks2.m_passphraseRequested := false;
     UDisks2.m_isAccessible := false;
     UDisks2.m_lastReturnObject := [];
     UDisks2.number := 1 |}.

Definition is_Call_GetAll (x : UPower.Effect) : bool :=
  match x with UPower.Call_GetAll => true | _ => false end.

(** What the service answers for one property: the value, or the null
    [QVariant] when the lookup is not valid. *)
Definition service_answer (r : UPower.Remote) (key : QString) : QVariant :=
  if isValid (UPower.property r key) then UPower.property r key else QVariant_null.

(** A keyboard with a model name, as the service lists it. *)
Definition keyboard_properties : gmap QString QVariant :=
  {[ QLatin1String "Type" := QVariant_fromUInt 6;
     QLatin1String "Model" := QVariant_fromString (QLatin1String "K380") ]}.

Definition keyboard_remote : UPower.Remote :=
  {| UPower.GetAll := Some keyboard_properties;
     UPower.property := λ _, QVariant_null;
     UPower.Refresh_isValid := true |}.

(** A line-power supply without a model name but with a vendor. *)
Definition adapter_properties : gmap QString QVariant :=
  {[ QLatin1String "Type" := QVariant_fromUInt 1;
     QLatin1String "Vendor" := QVariant_fromString (QLatin1String "ACME") ]}.

Definition adapter_remote : UPower.Remote :=
  {| UPower.GetAll := Some adapter_properties;
     UPower.property := λ _, QVariant_null;
     UPower.Refresh_isValid := true |}.

(** Constructors for the samples: the battery object reads the charge
    level when it is made, the generic one reads nothing. *)
Definition sample_construct (r : UPower.Remote) (object : UPower.DeviceInterfaceObject)
  : prog UPower.UPowerDevice UPower.Effect unit :=
  match object with
  | UPower.new_Battery => UPower.prop r (QLatin1String "Percentage");; mret tt
  | UPower.new_GenericInterface => mret tt
  end.

(** Translations left as the source text; [arg] puts its argument in front
    of what follows the place marker. *)
Definition sample_tr (sourceText disambiguation : string) : QString :=
  QLatin1String sourceText.

Definition sample_arg (pattern a : QString) : QString := a ++ drop 2 pattern.

(** A [QVariant] holding a [QDBusObjectPath]. *)
Definition QVariant_fromObjectPath (p : QString) : QVariant :=
  {| isValid := true; toUInt := 0; toBool := false; toString := [];
     toByteArrayList := []; toObjectPath := p |}.

(** Setup and teardown are not both in progress. *)
Definition one_at_a_time (s : UDisks2.StorageAccess) : Prop :=
  UDisks2.m_setupInProgress s && UDisks2.m_teardownInProgress s = false.

(** What can happen to a [StorageAccess] through its own requests and the
    replies to them: the two requests, the passphrase coming back, the
    reply or the error of a pending call, a change of the device. *)
Inductive Occurrence :=
| Do_setup
| Do_teardown
| Do_passphraseReply (passphrase : QString)
| Do_slotDBusReply
| Do_slotDBusError (name message : QString)
| Do_checkAccessibility.

Definition occur (e : UDisks2.Env) (o : Occurrence) : UDisks2.M unit :=
  match o with
  | Do_setup => UDisks2.setup e;; mret tt
  | Do_teardown => UDisks2.teardown e;; mret tt
  | Do_passphraseReply passphrase => UDisks2.passphraseReply e passphrase
  | Do_slotDBusReply => UDisks2.slotDBusReply e
  | Do_slotDBusError name message => UDisks2.slotDBusError e name message
  | Do_checkAccessibility => UDisks2.checkAccessibility e
  end.

(** A history: each occurrence with the environment it finds. *)
Fixpoint history (h : list (UDisks2.Env * Occurrence)) : UDisks2.M unit :=
  match h with
  | [] => mret tt
  | (e, o) :: h' => occur e o;; history h'
  end.

(** The encrypted container [sdb1] once unlocked: [dm-0] names it as its
    crypto backing device and is mounted or not. *)
Definition unlocked_env (mounted : bool) : UDisks2.Env :=
  {| UDisks2.udi := block_device_path (QLatin1String "sdb1");
     UDisks2.isEncryptedContainer := true;
     UDisks2.isMounted := false;
     UDisks2.isOpticalDisc := false;
     UDisks2.drivePath := QLatin1String "/org/freedesktop/UDisks2/drives/Stick";
     UDisks2.prop := λ _, QVariant_null;
     UDisks2.Device_isMounted := λ path,
       mounted && bool_decide (path = block_device_path (QLatin1String "dm-0"));
     UDisks2.Device_prop := λ path key,
       if bool_decide (path = block_device_path (QLatin1String "dm-0"))
       then if bool_decide (key = QLatin1String "CryptoBackingDevice")
            then QVariant_fromObjectPath (block_device_path (QLatin1String "sdb1"))
            else if bool_decide (key = QLatin1String "MountPoints")
            then QVariant_fromByteArrayList
                   (if mounted then [bytes "/run/media/user/secret"] else [])
            else QVariant_null
       else QVariant_null;
     UDisks2.Introspect := Some [Some (QLatin1String "sda"); None;
                                 Some (QLatin1String "sdb1");
                                 Some (QLatin1String "dm-0")];
     UDisks2.decodeName := decodeLatin1;
     UDisks2.callWithCallback := λ _ _, true;
     UDisks2.showPassphraseDialog_isValid := true;
     UDisks2.baseService := QLatin1String ":1.42";
     UDisks2.focusWindow := None;
     UDisks2.applicationName := QLatin1String "dolphin";
     UDisks2.errorToSolidError := λ _, UDisks2.OperationFailed;
     UDisks2.errorToString := λ name, name |}.

(** Neither in-progress flag is set in [s'] unless it was set in [s]. *)
Definition flags_not_raised (s s' : UDisks2.StorageAccess) : Prop :=
  (UDisks2.m_setupInProgress s' = UDisks2.m_setupInProgress s ∨
   UDisks2.m_setupInProgress s' = false) ∧
  (UDisks2.m_teardownInProgress s' = UDisks2.m_teardownInProgress s ∨
   UDisks2.m_teardownInProgress s' = false).

(** The calls to the storage service in a trace, in order. *)
Definition storage_calls (t : list UDisks2.Effect) : list UDisks2.Effect :=
  filter (λ x, is_storage_call x = true) t.

(** * Properties *)

(** Unfold the program combinators and the projections of an outcome. *)
Ltac run_prog :=
  unfold result, final, trace, mbind, prog_bind, mret, prog_ret, get, modify, emit;
  simpl.

Section UPowerProperties.
Import UPower.

Lemma startsWith_prefix_of (s needle : QString) :
  startsWith s needle = true ↔ needle `prefix_of` s.
Proof.
  revert s. induction needle as [|n needle IH]; intros s; simpl.
  - split; [intros _; apply prefix_nil | done].
  - destruct s as [|c s].
    + split; [done | intros H; by apply prefix_nil_not in H].
    + rewrite andb_true_iff, N.eqb_eq, IH. split.
      * intros [-> H]. by apply prefix_cons.
      * intros H. split; [symmetry; eapply prefix_cons_inv_1; eauto
                         | eapply prefix_cons_inv_2; eauto].
Qed.

Lemma case_label_spec (uptype : N) :
  match case_label uptype with
  | Some k => UpDeviceKind_value k = uptype
  | None => ∀ k, UpDeviceKind_value k ≠ uptype
  end.
Proof.
  cbv [case_label UpDeviceKinds List.find UpDeviceKind_value].
  repeat (match goal with
          | |- context [?a =? ?b] => destruct (N.eqb_spec a b); [done|]
          end).
  intros []; simpl; congruence.
Qed.

(** The cache that [checkCache key] leaves: refilled from [GetAll] if it was
    empty, then completed with an entry for [key] if it had none. *)
Lemma checkCache_final (r : Remote) (key : QString) (d : UPowerDevice) :
  let refilled :=
    if bool_decide (m_cache d = ∅) then default ∅ (GetAll r) else m_cache d in
  m_cache (final (checkCache r key d)) =
    match refilled !! key with
    | Some _ => refilled
    | None =>
        <[key := if isValid (property r key) then property r key else QVariant_null]>
          refilled
    end.
Proof.
  unfold checkCache, allProperties. run_prog.
  destruct (bool_decide (m_cache d = ∅)); simpl.
  - destruct (GetAll r) as [reply|]; simpl.
    + case_bool_decide as Hkey; simpl.
      * by destruct Hkey as [v ->].
      * destruct (reply !! key) as [v|] eqn:E; [by destruct Hkey; eauto|].
        by destruct (isValid (property r key)).
    + case_bool_decide as Hkey; simpl.
      * destruct Hkey as [v Hv]. by rewrite lookup_empty in Hv.
      * rewrite lookup_empty. by destruct (isValid (property r key)).
  - case_bool_decide as Hkey; simpl.
    + by destruct Hkey as [v ->].
    + destruct (m_cache d !! key) as [v|] eqn:E; [by destruct Hkey; eauto|].
      by destruct (isValid (property r key)).
Qed.

(** After [checkCache key] the cache has an entry for [key]. *)
Lemma checkCache_contains (r : Remote) (key : QString) (d : UPowerDevice) :
  is_Some (m_cache (final (checkCache r key d)) !! key).
Proof.
  rewrite checkCache_final. cbv zeta.
  set (refilled := if bool_decide _ then _ else _).
  destruct (refilled !! key) eqn:E; [rewrite E; eauto | rewrite lookup_insert_eq; eauto].
Qed.

(** The [switch] of [queryDeviceInterface] for the battery interface, as
    a function of the selected case label and of the prefix test. *)
Lemma queryDeviceInterface_Battery_switch (r : Remote) (d : UPowerDevice) :
  let type_read := prop r (QLatin1String "Type") d in
  let nativePath :=
    toString (result (prop r (QLatin1String "NativePath") (final type_read))) in
  result (queryDeviceInterface r Battery d) =
    match case_label (toUInt (result type_read)) with
    | Some UP_DEVICE_KIND_UNKNOWN =>
        startsWith nativePath (QLatin1String "/org/bluez/")
    | Some k => bool_decide (k ∈ battery_kinds)
    | None => false
    end.
Proof.
  unfold queryDeviceInterface, result, final, mbind, prog_bind, mret, prog_ret.
  destruct (prop r (QLatin1String "Type") d) as [[v d1] t1]. cbn [fst snd].
  destruct (case_label (toUInt v)) as [[]|]; try reflexivity.
  destruct (prop r (QLatin1String "NativePath") d1) as [[p d2] t2]. cbn [fst snd].
  by destruct (startsWith (toString p) (QLatin1String "/org/bluez/")).
Qed.

(** C6: the battery-capability query answers true for the kinds battery,
    UPS, mouse, keyboard, PDA, phone and gaming input, false for line power,
    monitor, media player, tablet and computer, and for the kind unknown
    answers true exactly when the native path starts with "/org/bluez/".
    The kind is [prop("Type").toUInt()]; the native path is read after it. *)
Theorem queryDeviceInterface_Battery_by_kind (r : Remote) (d : UPowerDevice) :
  let type_read := prop r (QLatin1String "Type") d in
  let kind := toUInt (result type_read) in
  let nativePath :=
    toString (result (prop r (QLatin1String "NativePath") (final type_read))) in
  let answer := result (queryDeviceInterface r Battery d) in
  (kind ∈ UpDeviceKind_value <$> battery_kinds → answer = true) ∧
  (kind ∈ UpDeviceKind_value <$> non_battery_kinds → answer = false) ∧
  (kind = UpDeviceKind_value UP_DEVICE_KIND_UNKNOWN →
     (answer = true ↔ QLatin1String "/org/bluez/" `prefix_of` nativePath)) ∧
  (answer = true ↔
     kind ∈ UpDeviceKind_value <$> battery_kinds ∨
     (kind = UpDeviceKind_value UP_DEVICE_KIND_UNKNOWN ∧
      QLatin1String "/org/bluez/" `prefix_of` nativePath)).
Proof.
  pose proof (queryDeviceInterface_Battery_switch r d) as Hsw.
  cbv zeta in *. rewrite Hsw. clear Hsw.
  rewrite <- startsWith_prefix_of.
  generalize (startsWith
    (toString (result (prop r (QLatin1String "NativePath")
                         (final (prop r (QLatin1String "Type") d)))))
    (QLatin1String "/org/bluez/")).
  generalize (toUInt (result (prop r (QLatin1String "Type") d))).
  intros kind b.
  pose proof (case_label_spec kind) as Hk.
  unfold battery_kinds, non_battery_kinds.
  rewrite !list_elem_of_fmap.
  destruct (case_label kind) as [k|].
  - rewrite <- Hk. clear Hk.
    assert (Hinj : ∀ k', UpDeviceKind_value k = UpDeviceKind_value k' → k' = k).
    { intros k'. destruct k, k'; simpl; congruence. }
    assert (Hmem : ∀ l : list UpDeviceKind,
               (∃ k', UpDeviceKind_value k = UpDeviceKind_value k' ∧ k' ∈ l) ↔ k ∈ l).
    { intros l. split; [by intros (k' & ->%Hinj & ?) | by eauto]. }
    assert (Hunk : UpDeviceKind_value k = UpDeviceKind_value UP_DEVICE_KIND_UNKNOWN
                   ↔ k = UP_DEVICE_KIND_UNKNOWN).
    { split; [by intros <-%Hinj | by intros ->]. }
    rewrite !Hmem, Hunk. clear Hinj Hmem Hunk.
    destruct k, b; try vm_compute (bool_decide _);
      rewrite !elem_of_cons, !elem_of_nil; intuition congruence.
  - repeat split; try done.
    + intros (k & Hv & _). by destruct (Hk k).
    + intros Hv. by destruct (Hk UP_DEVICE_KIND_UNKNOWN).
    + intros [(k & Hv & _) | [Hv _]].
      * by destruct (Hk k).
      * by destruct (Hk UP_DEVICE_KIND_UNKNOWN).
Qed.

(** The headset of kind unknown with a BlueZ native path offers the battery
    interface. *)
Lemma queryDeviceInterface_Battery_by_kind_witness :
  result (queryDeviceInterface headset_remote Battery fresh_device) = true.
Proof.
  pose proof (queryDeviceInterface_Battery_by_kind headset_remote fresh_device)
    as (_ & _ & Hunknown & _).
  apply Hunknown.
  - vm_compute. reflexivity.
  - vm_compute. by eexists.
Defined.

(** C7: on [login1Resuming(false)] one Refresh call goes out; when its
    reply is valid the cache is cleared once and [changed()] is emitted
    once, and when it is not, the cache is left alone and nothing is
    emitted. *)
Theorem login1Resuming_refresh_then_changed (r : Remote) (d : UPowerDevice) :
  let out := login1Resuming r false d in
  occurrences is_Call_Refresh (trace out) = 1%nat ∧
  if Refresh_isValid r
  then occurrences is_Cache_clear (trace out) = 1%nat ∧
       occurrences is_Emit_changed (trace out) = 1%nat ∧
       m_cache (final out) = ∅
  else occurrences is_Cache_clear (trace out) = 0%nat ∧
       occurrences is_Emit_changed (trace out) = 0%nat ∧
       final out = d.
Proof.
  unfold login1Resuming, slotChanged. run_prog.
  destruct (Refresh_isValid r); simpl; done.
Qed.

(** C9: after [prop(key)] or [propertyExists(key)] the cache has an entry
    for [key], so [propertyExists(key)] returns true whatever the service
    knows; when the key is in neither the refilled cache nor known to the
    service, the entry stored is the null [QVariant]. *)
Theorem propertyExists_always_true (r : Remote) (d : UPowerDevice) (key : QString) :
  let refilled :=
    if bool_decide (m_cache d = ∅) then default ∅ (GetAll r) else m_cache d in
  is_Some (m_cache (final (prop r key d)) !! key) ∧
  is_Some (m_cache (final (propertyExists r key d)) !! key) ∧
  result (propertyExists r key d) = true ∧
  (refilled !! key = None → isValid (property r key) = false →
     m_cache (final (propertyExists r key d)) !! key = Some QVariant_null).
Proof.
  pose proof (checkCache_contains r key d) as Hin.
  assert (Hprop : final (prop r key d) = final (checkCache r key d)).
  { unfold prop. run_prog. by destruct (checkCache r key d) as [[[] d1] t1]. }
  assert (Hexists : final (propertyExists r key d) = final (checkCache r key d)).
  { unfold propertyExists. run_prog. by destruct (checkCache r key d) as [[[] d1] t1]. }
  cbv zeta. rewrite Hprop, Hexists. repeat split; try done.
  - unfold propertyExists. run_prog. unfold final in Hin.
    destruct (checkCache r key d) as [[[] d1] t1]. simpl in *.
    by apply bool_decide_eq_true_2.
  - intros Hmiss Hinvalid. rewrite checkCache_final. cbv zeta.
    rewrite Hmiss, Hinvalid. apply lookup_insert_eq.
Qed.

(** A key the silent service does not know still "exists", with a null
    value. *)
Lemma propertyExists_always_true_witness :
  m_cache (final (propertyExists silent_remote (QLatin1String "Capacity") fresh_device))
    !! QLatin1String "Capacity" = Some QVariant_null.
Proof.
  apply (propertyExists_always_true silent_remote fresh_device (QLatin1String "Capacity")).
  - vm_compute. reflexivity.
  - vm_compute. reflexivity.
Defined.

End UPowerProperties.

Section UDisks2Properties.
Import UDisks2.

(** C1: [setup()] or [teardown()] called while either in-progress flag is
    set returns false, leaves every member as it was and produces no
    signal, broadcast or call. *)
Theorem setup_teardown_rejected_while_busy (e : Env) (s : StorageAccess) :
  m_setupInProgress s = true ∨ m_teardownInProgress s = true →
  setup e s = (false, s, []) ∧ teardown e s = (false, s, []).
Proof.
  intros Hbusy. unfold setup, teardown. run_prog.
  assert (m_teardownInProgress s || m_setupInProgress s = true) as ->; [|done].
  destruct Hbusy as [-> | ->]; [apply orb_true_r | done].
Qed.

(** A teardown under way blocks both requests. *)
Lemma setup_teardown_rejected_while_busy_witness :
  let busy := set_teardownInProgress true idle in
  setup locked_env busy = (false, busy, []) ∧
  teardown locked_env busy = (false, busy, []).
Proof.
  apply (setup_teardown_rejected_while_busy locked_env (set_teardownInProgress true idle)).
  right. reflexivity.
Defined.

(** What one run of [checkAccessibility] does. *)
Lemma checkAccessibility_outcome (e : Env) (s : StorageAccess) :
  checkAccessibility e s =
    (tt, set_isAccessible (isAccessible e) s,
     if eqb (m_isAccessible s) (isAccessible e) then []
     else [Emit_accessibilityChanged (isAccessible e) (udi e)]).
Proof.
  unfold checkAccessibility, updateCache. run_prog.
  by destruct (eqb (m_isAccessible s) (isAccessible e)).
Qed.

Lemma occurrences_app {E} (p : E → bool) (t1 t2 : list E) :
  occurrences p (t1 ++ t2) = (occurrences p t1 + occurrences p t2)%nat.
Proof. unfold occurrences. by rewrite filter_app, length_app. Qed.

(** C3: [checkAccessibility] stores the recomputed accessibility and emits
    [accessibilityChanged] exactly when it differs from the cached value;
    over any sequence of change notifications the trace consists of
    [accessibilityChanged] signals only, one per change of value. *)
Theorem checkAccessibility_edge_triggered (es : list Env) (e : Env) (s : StorageAccess) :
  let out := checkAccessibility e s in
  m_isAccessible (final out) = isAccessible e ∧
  (Emit_accessibilityChanged (isAccessible e) (udi e) ∈ trace out
     ↔ isAccessible e ≠ m_isAccessible s) ∧
  (isAccessible e = m_isAccessible s ↔ trace out = []) ∧
  occurrences is_accessibilityChanged (trace out) =
    transitions (m_isAccessible s) [isAccessible e] ∧
  occurrences is_accessibilityChanged (trace (changed_notifications es s)) =
    transitions (m_isAccessible s) (isAccessible <$> es) ∧
  length (trace (changed_notifications es s)) =
    transitions (m_isAccessible s) (isAccessible <$> es).
Proof.
  cbv zeta. rewrite checkAccessibility_outcome. unfold final, trace. simpl.
  split; [done|]. split; [|split; [|split]].
  - destruct (m_isAccessible s), (isAccessible e); simpl;
      rewrite ?list_elem_of_singleton, ?elem_of_nil; naive_solver.
  - destruct (m_isAccessible s), (isAccessible e); simpl; naive_solver.
  - by destruct (m_isAccessible s), (isAccessible e).
  - assert (Hrun : ∀ s0,
      occurrences is_accessibilityChanged (changed_notifications es s0).2 =
        transitions (m_isAccessible s0) (isAccessible <$> es) ∧
      length (changed_notifications es s0).2 =
        transitions (m_isAccessible s0) (isAccessible <$> es)).
    { induction es as [|e0 es IH]; intros s0; [done|].
      simpl. unfold mbind, prog_bind. rewrite checkAccessibility_outcome.
      destruct (IH (set_isAccessible (isAccessible e0) s0)) as [IH1 IH2].
      destruct (changed_notifications es _) as [[[] s1] t1]. simpl in *.
      rewrite occurrences_app, length_app, IH1, IH2.
      by destruct (eqb (m_isAccessible s0) (isAccessible e0)). }
    apply Hrun.
Qed.

(** The eject / power-off attempt changes no member. *)
Lemma eject_or_powerOff_outcome (e : Env) (drivePath : QString) (s : StorageAccess) :
  eject_or_powerOff e drivePath s = (tt, s, trace (eject_or_powerOff e drivePath s)).
Proof.
  unfold eject_or_powerOff, trace, emit, mret, prog_ret.
  by repeat destruct (_ && _).
Qed.

(** C8: the test [!drivePath.isEmpty() || drivePath != "/"] that guards the
    eject / power-off attempt in [slotDBusReply] holds for every drive
    path, the empty one included; so when an unmount has succeeded and
    there is no cleartext path, the attempt is made on whatever
    [drivePath()] answers, before the teardown is reported done. *)
Theorem drivePath_guard_always_true (e : Env) (s : StorageAccess) (drivePath : QString) :
  drivePath_guard drivePath = true ∧
  drivePath_guard [] = true ∧
  (m_setupInProgress s = false → m_teardownInProgress s = true →
   clearTextPath e = [] →
   ∃ rest,
     trace (slotDBusReply e s) =
       trace (eject_or_powerOff e (UDisks2.drivePath e) s) ++
       InvalidateCache ::
       BroadcastActionDone (QLatin1String "teardown") NoError [] :: rest).
Proof.
  assert (Hguard : ∀ p, drivePath_guard p = true).
  { intros [|c rest]; done. }
  split; [done|]. split; [done|].
  intros Hsetup Hteardown Hct.
  pose proof (eject_or_powerOff_outcome e (UDisks2.drivePath e) s) as Hattempt.
  set (attempt := trace (eject_or_powerOff e (UDisks2.drivePath e) s)) in *.
  unfold slotDBusReply, mbind, prog_bind, get, modify, emit.
  rewrite Hsetup, Hteardown, Hct, Hguard. cbn [isEmpty negb].
  rewrite andb_false_r. cbn [andb].
  rewrite Hattempt, checkAccessibility_outcome.
  unfold trace. cbn [snd app]. eexists. reflexivity.
Qed.

(** After the locked container's unmount the attempt is made, then the
    teardown is reported done. *)
Lemma drivePath_guard_always_true_witness :
  ∃ rest,
    trace (slotDBusReply locked_env (set_teardownInProgress true idle)) =
      trace (eject_or_powerOff locked_env (drivePath locked_env)
               (set_teardownInProgress true idle)) ++
      InvalidateCache ::
      BroadcastActionDone (QLatin1String "teardown") NoError [] :: rest.
Proof.
  apply (drivePath_guard_always_true locked_env (set_teardownInProgress true idle) []).
  - reflexivity.
  - reflexivity.
  - vm_compute. reflexivity.
Defined.

(** The loop of [get_shortest] keeps the first of the shortest entries seen
    so far: [pre] holds strictly longer ones, [mid] none shorter. *)
Lemma get_shortest_from_first_shortest (e : Env) (rest pre : list QByteArray)
    (x : QByteArray) (mid : list QByteArray) :
  (∀ y, y ∈ pre → (length (decodeName e x) < length (decodeName e y))%nat) →
  (∀ y, y ∈ mid → (length (decodeName e x) ≤ length (decodeName e y))%nat) →
  ∃ pre' x' post',
    pre ++ x :: mid ++ rest = pre' ++ x' :: post' ∧
    get_shortest_from e (decodeName e x) rest = decodeName e x' ∧
    (∀ y, y ∈ pre' → (length (decodeName e x') < length (decodeName e y))%nat) ∧
    (∀ y, y ∈ post' → (length (decodeName e x') ≤ length (decodeName e y))%nat).
Proof.
  revert pre x mid. induction rest as [|b rest IH]; intros pre x mid Hpre Hmid.
  - exists pre, x, mid. by rewrite app_nil_r.
  - simpl. destruct (Nat.ltb_spec (length (decodeName e b)) (length (decodeName e x)))
      as [Hlt | Hge].
    + destruct (IH (pre ++ x :: mid) b []) as (pre' & x' & post' & Heq & Hres & H1 & H2).
      * intros y [Hy | [-> | Hy]%elem_of_cons]%elem_of_app.
        -- specialize (Hpre y Hy). lia.
        -- done.
        -- specialize (Hmid y Hy). lia.
      * intros y Hy. by apply elem_of_nil in Hy.
      * exists pre', x', post'. split; [|done].
        rewrite <- Heq. by rewrite <- app_assoc.
    + destruct (IH pre x (mid ++ [b])) as (pre' & x' & post' & Heq & Hres & H1 & H2).
      * done.
      * intros y [Hy | ->%list_elem_of_singleton]%elem_of_app; [by apply Hmid | done].
      * exists pre', x', post'. split; [|done].
        rewrite <- Heq. by rewrite <- app_assoc.
Qed.

Lemma get_shortest_first_shortest (e : Env) (mntPoints : list QByteArray) :
  mntPoints ≠ [] →
  ∃ pre x post,
    mntPoints = pre ++ x :: post ∧
    get_shortest e mntPoints = decodeName e x ∧
    (∀ y, y ∈ pre → (length (decodeName e x) < length (decodeName e y))%nat) ∧
    (∀ y, y ∈ post → (length (decodeName e x) ≤ length (decodeName e y))%nat).
Proof.
  destruct mntPoints as [|first rest]; [done | intros _].
  destruct (get_shortest_from_first_shortest e rest [] first [])
    as (pre & x & post & Heq & Hres & H1 & H2);
    try (intros y Hy; by apply elem_of_nil in Hy).
  exists pre, x, post. done.
Qed.

(** [clearTextPath] answers the empty string or the path of a listed node
    that names this device as its crypto backing device. *)
Lemma clearTextPath_nodes_found (e : Env) (nodeList : list (option QString)) :
  (clearTextPath_nodes e nodeList = [] ∧
   ∀ name, Some name ∈ nodeList →
     toObjectPath (Device_prop e (block_device_path name)
                     (QLatin1String "CryptoBackingDevice")) ≠ udi e) ∨
  (∃ name, Some name ∈ nodeList ∧
     clearTextPath_nodes e nodeList = block_device_path name ∧
     toObjectPath (Device_prop e (block_device_path name)
                     (QLatin1String "CryptoBackingDevice")) = udi e).
Proof.
  induction nodeList as [|[name|] rest IH]; simpl.
  - left. split; [done|]. intros name Hin. by apply elem_of_nil in Hin.
  - fold (block_device_path name). unfold qstring_eqb. case_bool_decide as Heq.
    + right. exists name. split; [left | done].
    + destruct IH as [[Hnil Hnone] | (name' & Hin & Hpath & Hback)].
      * left. split; [done|]. intros name' [[= ->] | Hin]%elem_of_cons; [done | by apply Hnone].
      * right. exists name'. split; [by right | done].
  - destruct IH as [[Hnil Hnone] | (name' & Hin & Hpath & Hback)].
    + left. split; [done|]. intros name' [[=] | Hin]%elem_of_cons. by apply Hnone.
    + right. exists name'. split; [by right | done].
Qed.

Lemma block_device_path_not_short (name : QString) :
  block_device_path name ≠ [] ∧ block_device_path name ≠ QLatin1String "/".
Proof. split; intros H; vm_compute in H; discriminate. Qed.

Lemma clearTextPath_not_root (e : Env) : clearTextPath e ≠ QLatin1String "/".
Proof.
  unfold clearTextPath. destruct (Introspect e) as [nodeList|]; [|done].
  destruct (clearTextPath_nodes_found e nodeList) as [[-> _] | (name & _ & -> & _)];
    [done | apply block_device_path_not_short].
Qed.

(** No cleartext sibling is discoverable exactly when [clearTextPath]
    answers the empty string. *)
Lemma clearTextPath_empty_iff (e : Env) :
  clearTextPath e = [] ↔ ¬ has_cleartext_sibling e.
Proof.
  unfold clearTextPath, has_cleartext_sibling.
  destruct (Introspect e) as [nodeList|];
    [|split; [by intros _ (? & ? & [=] & _) | done]].
  destruct (clearTextPath_nodes_found e nodeList)
    as [[Hnil Hnone] | (name & Hin & Hpath & Hback)].
  - split; [|done]. intros _ (nodeList' & name & [= <-] & Hin & Hback).
    by apply (Hnone name).
  - split.
    + rewrite Hpath. intros H. by apply block_device_path_not_short in H.
    + intros H. destruct H. eauto.
Qed.

(** [filePath] is [get_shortest] of the relevant mount points, unless the
    device is an encrypted container without a cleartext holder. *)
Lemma filePath_get_shortest (e : Env) :
  (isEncryptedContainer e = true → clearTextPath e ≠ []) →
  filePath e = get_shortest e (relevant_mountPoints e).
Proof.
  intros Hholder. unfold filePath, relevant_mountPoints, isLuksDevice.
  destruct (isEncryptedContainer e); [|done].
  specialize (Hholder eq_refl). pose proof (clearTextPath_not_root e) as Hroot.
  destruct (clearTextPath e) as [|c path]; [done|]. simpl.
  unfold qstring_eqb. by rewrite bool_decide_eq_false_2.
Qed.

(** C10: [filePath()] is the empty string when the relevant device reports
    no mount point, and when the device is an encrypted container whose
    cleartext path is empty or "/". *)
Theorem filePath_empty (e : Env) :
  relevant_mountPoints e = [] ∨
  (isEncryptedContainer e = true ∧
   (clearTextPath e = [] ∨ clearTextPath e = QLatin1String "/")) →
  filePath e = [].
Proof.
  unfold filePath, relevant_mountPoints, isLuksDevice.
  intros [Hnone | (Hluks & [Hct | Hct])].
  - destruct (isEncryptedContainer e); rewrite Hnone; simpl; [|done].
    by destruct (_ || _).
  - by rewrite Hluks, Hct.
  - rewrite Hluks, Hct. unfold qstring_eqb. rewrite bool_decide_eq_true_2; [|done].
    by rewrite orb_true_r.
Qed.

(** A locked encrypted container has no file path. *)
Lemma filePath_empty_witness : filePath locked_env = [].
Proof.
  apply (filePath_empty locked_env).
  right. split; [reflexivity | left; vm_compute; reflexivity].
Defined.

(** C4 (amended): when the relevant device reports mount points,
    [filePath()] is the decoded first entry among those of minimal decoded
    length; for the mount points "/media/foo/bar", "/run/media/foo" in this
    order, decoded to the same text, both have length 14 and the answer is
    the first, "/media/foo/bar". *)
Theorem filePath_first_of_the_shortest (e : Env) :
  (isEncryptedContainer e = true → clearTextPath e ≠ []) →
  relevant_mountPoints e ≠ [] →
  (∃ pre x post,
     relevant_mountPoints e = pre ++ x :: post ∧
     filePath e = decodeName e x ∧
     (∀ y, y ∈ pre → (length (decodeName e x) < length (decodeName e y))%nat) ∧
     (∀ y, y ∈ post → (length (decodeName e x) ≤ length (decodeName e y))%nat)) ∧
  (relevant_mountPoints e = [bytes "/media/foo/bar"; bytes "/run/media/foo"] →
   decodeName e (bytes "/media/foo/bar") = QLatin1String "/media/foo/bar" →
   decodeName e (bytes "/run/media/foo") = QLatin1String "/run/media/foo" →
   filePath e = QLatin1String "/media/foo/bar").
Proof.
  intros Hholder Hsome. rewrite (filePath_get_shortest e Hholder). split.
  - by apply get_shortest_first_shortest.
  - intros -> Hbar Hfoo. simpl. by rewrite Hbar, Hfoo.
Qed.

(** The device with the two mount points of the example. *)
Lemma filePath_first_of_the_shortest_witness :
  filePath two_mounts_env = QLatin1String "/media/foo/bar".
Proof.
  apply (filePath_first_of_the_shortest two_mounts_env).
  - intros H. vm_compute in H. discriminate.
  - vm_compute. discriminate.
  - reflexivity.
  - vm_compute. reflexivity.
  - vm_compute. reflexivity.
Defined.

(** C4 as stated fails: for the mount points "/media/foo/bar",
    "/run/media/foo" the two paths are equally long, and [filePath()] is
    "/media/foo/bar", not "/run/media/foo". *)
Lemma filePath_example_keeps_first :
  length (QLatin1String "/media/foo/bar") = length (QLatin1String "/run/media/foo") ∧
  filePath two_mounts_env = QLatin1String "/media/foo/bar" ∧
  filePath two_mounts_env ≠ QLatin1String "/run/media/foo".
Proof.
  split; [reflexivity|]. split; [vm_compute; reflexivity|].
  intros H. vm_compute in H. discriminate.
Qed.

(** What [requestPassphrase] and [mount] do. *)
Lemma requestPassphrase_outcome (e : Env) (s : StorageAccess) :
  let returnObject :=
    QLatin1String "/org/kde/solid/UDisks2StorageAccess_" ++ QString_number (number s) in
  let wId := match focusWindow e with Some winId => winId mod 2 ^ 32 | None => 0 end in
  requestPassphrase e s =
    (showPassphraseDialog_isValid e,
     set_passphraseRequested (showPassphraseDialog_isValid e)
       (set_lastReturnObject returnObject (set_number (wrap_int (number s + 1)) s)),
     [RegisterObject returnObject;
      Call_showPassphraseDialog (udi e) (baseService e) returnObject wId
        (applicationName e)]).
Proof. reflexivity. Qed.

Lemma mount_outcome (e : Env) (s : StorageAccess) :
  ∃ options,
    let msg := createMethodCall UD2_DBUS_SERVICE (target_path e)
                 UD2_DBUS_INTERFACE_FILESYSTEM (QLatin1String "Mount")
                 [Arg_QVariantMap options] in
    mount e s = (callWithCallback e msg DefaultTimeout, s,
                 [Call_withCallback msg DefaultTimeout]).
Proof. unfold mount. by eexists. Qed.

(** [setup()] past the guard: the flag is set, the request is broadcast,
    and one of the two continuations runs. *)
Lemma setup_idle (e : Env) (s : StorageAccess) :
  m_setupInProgress s = false → m_teardownInProgress s = false →
  setup e s =
    let '(b, s2, t2) :=
      (if isEncryptedContainer e && isEmpty (clearTextPath e)
       then requestPassphrase e else mount e) (set_setupInProgress true s) in
    (b, s2, BroadcastActionRequested (QLatin1String "setup") :: t2).
Proof.
  intros Hsetup Hteardown.
  unfold setup, mbind, prog_bind, get, modify, emit.
  rewrite Hsetup, Hteardown. cbn [orb app].
  by destruct ((if isEncryptedContainer e && isEmpty (clearTextPath e)
                then requestPassphrase e else mount e) (set_setupInProgress true s))
    as [[b s2] t2].
Qed.

(** C5: with no operation in progress, [setup()] on an encrypted container
    without a discoverable cleartext sibling registers a return object and
    calls the passphrase dialog, sending nothing to the storage service;
    on any other device it sends one Mount call to the file-system
    interface and returns what sending it returned. *)
Theorem setup_asks_passphrase_or_mounts (e : Env) (s : StorageAccess) :
  m_setupInProgress s = false → m_teardownInProgress s = false →
  let out := setup e s in
  m_setupInProgress (final out) = true ∧
  (isEncryptedContainer e = true ∧ ¬ has_cleartext_sibling e →
     (∃ returnObject wId,
        trace out =
          [BroadcastActionRequested (QLatin1String "setup");
           RegisterObject returnObject;
           Call_showPassphraseDialog (udi e) (baseService e) returnObject wId
             (applicationName e)]) ∧
     occurrences is_storage_call (trace out) = 0%nat) ∧
  (isEncryptedContainer e = false ∨ has_cleartext_sibling e →
     ∃ path options,
       let msg := createMethodCall UD2_DBUS_SERVICE path
                    UD2_DBUS_INTERFACE_FILESYSTEM (QLatin1String "Mount")
                    [Arg_QVariantMap options] in
       trace out = [BroadcastActionRequested (QLatin1String "setup");
                    Call_withCallback msg DefaultTimeout] ∧
       result out = callWithCallback e msg DefaultTimeout).
Proof.
  intros Hsetup Hteardown. cbv zeta.
  pose proof (clearTextPath_empty_iff e) as Hsibling.
  rewrite (setup_idle e s Hsetup Hteardown).
  assert (Hcase : isEncryptedContainer e && isEmpty (clearTextPath e) = true
                  ↔ isEncryptedContainer e = true ∧ ¬ has_cleartext_sibling e).
  { rewrite andb_true_iff, <- Hsibling.
    destruct (clearTextPath e); simpl; intuition congruence. }
  destruct (isEncryptedContainer e && isEmpty (clearTextPath e)) eqn:Hask.
  - rewrite requestPassphrase_outcome. unfold result, final, trace. cbn [fst snd].
    split; [done|]. split.
    + intros _. split; [by do 2 eexists | done].
    + intros [Hplain | Hsib].
      * destruct Hcase as [Hcase _]. destruct (Hcase eq_refl). congruence.
      * destruct Hcase as [Hcase _]. by destruct (Hcase eq_refl).
  - destruct (mount_outcome e (set_setupInProgress true s)) as [options ->].
    unfold result, final, trace. cbn [fst snd]. split; [done|]. split.
    + intros Hlocked. apply Hcase in Hlocked. done.
    + intros _. by exists (target_path e), options.
Qed.

(** On the locked container, [setup()] asks for the passphrase and sends
    nothing to the storage service. *)
Lemma setup_asks_passphrase_or_mounts_witness :
  occurrences is_storage_call (trace (setup locked_env idle)) = 0%nat.
Proof.
  pose proof (setup_asks_passphrase_or_mounts locked_env idle eq_refl eq_refl)
    as (_ & Hlocked & _).
  apply Hlocked. split; [reflexivity|].
  apply clearTextPath_empty_iff. vm_compute. reflexivity.
Defined.

(** C2 (amended): an empty passphrase reply that arrives while a passphrase
    is awaited unregisters the return object, clears the passphrase-awaited
    and setup-in-progress flags and broadcasts the end of the setup with
    the user-cancellation error, and nothing else; when the call to the
    prompt service fails, [requestPassphrase()], and with it [setup()],
    returns false at once with no call sent to the storage service and no
    end of setup broadcast. *)
Theorem passphrase_cancelled_or_prompt_unreachable (e : Env) (s s' : StorageAccess) :
  (m_passphraseRequested s = true →
   passphraseReply e [] s =
     (tt, set_setupInProgress false (set_passphraseRequested false s),
      [UnregisterObject (m_lastReturnObject s);
       BroadcastActionDone (QLatin1String "setup") UserCanceled []])) ∧
  (showPassphraseDialog_isValid e = false →
   (let out := requestPassphrase e s' in
    result out = false ∧
    m_passphraseRequested (final out) = false ∧
    occurrences is_storage_call (trace out) = 0%nat ∧
    occurrences is_BroadcastActionDone (trace out) = 0%nat) ∧
   (m_setupInProgress s' = false → m_teardownInProgress s' = false →
    isEncryptedContainer e = true → ¬ has_cleartext_sibling e →
    let out := setup e s' in
    result out = false ∧
    occurrences is_storage_call (trace out) = 0%nat ∧
    occurrences is_BroadcastActionDone (trace out) = 0%nat)).
Proof.
  split.
  - intros Hasked. unfold passphraseReply. unfold mbind, prog_bind, get at 1.
    by rewrite Hasked.
  - intros Hdown. split.
    + cbv zeta. rewrite requestPassphrase_outcome, Hdown. done.
    + intros Hsetup Hteardown Hluks Hnone. cbv zeta.
      apply clearTextPath_empty_iff in Hnone.
      rewrite (setup_idle e s' Hsetup Hteardown), Hluks, Hnone. cbn [andb isEmpty].
      rewrite requestPassphrase_outcome, Hdown. done.
Qed.

(** Cancelling the dialog that was opened for the locked container, the
    prompt service being reachable; and a setup with the prompt service
    out of reach. *)
Lemma passphrase_cancelled_or_prompt_unreachable_witness :
  let asked := final (setup locked_env idle) in
  passphraseReply locked_env [] asked =
    (tt, set_setupInProgress false (set_passphraseRequested false asked),
     [UnregisterObject (m_lastReturnObject asked);
      BroadcastActionDone (QLatin1String "setup") UserCanceled []]) ∧
  result (setup locked_no_prompt_env idle) = false.
Proof.
  split.
  - pose proof (passphrase_cancelled_or_prompt_unreachable locked_env
                  (final (setup locked_env idle)) idle) as [Hcancel _].
    apply Hcancel. reflexivity.
  - pose proof (passphrase_cancelled_or_prompt_unreachable locked_no_prompt_env
                  idle idle) as [_ Hdown].
    destruct (Hdown eq_refl) as [_ Hsetup].
    apply Hsetup; try reflexivity.
    apply clearTextPath_empty_iff. vm_compute. reflexivity.
Defined.

(** C2 as stated fails: when the call to the prompt service fails, the
    setup-in-progress flag stays set and no end of setup, with the
    user-cancellation error or any other, is broadcast. *)
Lemma prompt_failure_is_not_a_cancellation :
  let out := setup locked_no_prompt_env idle in
  result out = false ∧
  m_setupInProgress (final out) = true ∧
  occurrences is_BroadcastActionDone (trace out) = 0%nat ∧
  BroadcastActionDone (QLatin1String "setup") UserCanceled [] ∉ trace out.
Proof.
  cbv zeta. repeat split; try (vm_compute; reflexivity).
  intros H. vm_compute in H.
  repeat (apply elem_of_cons in H as [H | H]; [discriminate|]).
  by apply elem_of_nil in H.
Qed.

End UDisks2Properties.

(** * Further properties of the UPower device *)

Section UPowerFurther.
Import UPower.

(** A key that is in the cache is read without any call. *)
Lemma checkCache_hit (r : Remote) (key : QString) (d : UPowerDevice) :
  is_Some (m_cache d !! key) → checkCache r key d = (tt, d, []).
Proof.
  intros Hkey. unfold checkCache, mbind, prog_bind, get, mret, prog_ret.
  rewrite bool_decide_eq_false_2.
  - by rewrite bool_decide_eq_true_2.
  - intros Hempty. rewrite Hempty, lookup_empty in Hkey. by destruct Hkey.
Qed.

Lemma prop_hit (r : Remote) (key : QString) (d : UPowerDevice) (v : QVariant) :
  m_cache d !! key = Some v → prop r key d = (v, d, []).
Proof.
  intros Hkey. unfold prop, mbind, prog_bind, get, mret, prog_ret.
  rewrite checkCache_hit by eauto. by rewrite Hkey.
Qed.

Lemma prop_outcome (r : Remote) (key : QString) (d : UPowerDevice) :
  final (prop r key d) = final (checkCache r key d) ∧
  m_cache (final (prop r key d)) !! key = Some (result (prop r key d)).
Proof.
  pose proof (checkCache_contains r key d) as [v Hv].
  unfold prop, result, final, mbind, prog_bind, get, mret, prog_ret in *.
  destruct (checkCache r key d) as [[[] d1] t1]. simpl in *. by rewrite Hv.
Qed.

(** X1: once [prop(key)] has run, a further [prop(key)] returns the same
    value, sends nothing to the service and leaves the device as it is,
    whatever the service would answer by then. *)
Theorem prop_served_from_cache (r r' : Remote) (key : QString) (d : UPowerDevice) :
  let first := prop r key d in
  prop r' key (final first) = (result first, final first, []) ∧
  propertyExists r' key (final first) = (true, final first, []).
Proof.
  cbv zeta. destruct (prop_outcome r key d) as [_ Hkey]. split.
  - by apply prop_hit.
  - unfold propertyExists, mbind, prog_bind, get, mret, prog_ret.
    rewrite checkCache_hit by eauto. rewrite bool_decide_eq_true_2 by eauto. done.
Qed.

(** Reading a property keeps every entry the cache already has. *)
Lemma checkCache_keeps (r : Remote) (key k : QString) (d : UPowerDevice) (v : QVariant) :
  m_cache d !! k = Some v → m_cache (final (checkCache r key d)) !! k = Some v.
Proof.
  intros Hk. rewrite checkCache_final. cbv zeta.
  rewrite bool_decide_eq_false_2.
  - destruct (m_cache d !! key) eqn:Hkey; [done|].
    rewrite lookup_insert_ne; [done | by intros ->; congruence].
  - intros Hempty. by rewrite Hempty, lookup_empty in Hk.
Qed.

(** X2: reading one property never changes the cached value of another:
    an entry that is in the cache is still there, with the same value,
    after [prop] or [propertyExists] on any key. *)
Theorem prop_keeps_other_entries (r : Remote) (key k : QString) (d : UPowerDevice)
    (v : QVariant) :
  m_cache d !! k = Some v →
  m_cache (final (prop r key d)) !! k = Some v ∧
  m_cache (final (propertyExists r key d)) !! k = Some v.
Proof.
  intros Hk. destruct (prop_outcome r key d) as [-> _]. split.
  - by apply checkCache_keeps.
  - assert (final (propertyExists r key d) = final (checkCache r key d)) as ->.
    { unfold propertyExists. run_prog. by destruct (checkCache r key d) as [[[] d1] t1]. }
    by apply checkCache_keeps.
Qed.

(** The keyboard's model stays cached while its vendor is looked up. *)
Lemma prop_keeps_other_entries_witness :
  let d := final (prop keyboard_remote (QLatin1String "Model") fresh_device) in
  m_cache (final (prop silent_remote (QLatin1String "Vendor") d))
    !! QLatin1String "Model" = Some (QVariant_fromString (QLatin1String "K380")).
Proof.
  apply (prop_keeps_other_entries silent_remote (QLatin1String "Vendor")
           (QLatin1String "Model")).
  vm_compute. reflexivity.
Defined.

(** The calls [checkCache] sends: [GetAll] if the cache is empty, then a
    single lookup if the key is still missing. *)
Lemma checkCache_trace (r : Remote) (key : QString) (d : UPowerDevice) :
  let refilled :=
    if bool_decide (m_cache d = ∅) then default ∅ (GetAll r) else m_cache d in
  trace (checkCache r key d) =
    (if bool_decide (m_cache d = ∅) then [Call_GetAll] else []) ++
    (match refilled !! key with Some _ => [] | None => [Call_property key] end).
Proof.
  unfold checkCache, allProperties. run_prog.
  destruct (bool_decide (m_cache d = ∅)); simpl.
  - destruct (GetAll r) as [reply|]; simpl.
    + case_bool_decide as Hkey; simpl.
      * by destruct Hkey as [v ->].
      * destruct (reply !! key) as [v|] eqn:E; [by destruct Hkey; eauto|].
        by destruct (isValid (property r key)).
    + case_bool_decide as Hkey; simpl.
      * destruct Hkey as [v Hv]. by rewrite lookup_empty in Hv.
      * rewrite lookup_empty. by destruct (isValid (property r key)).
  - case_bool_decide as Hkey; simpl.
    + by destruct Hkey as [v ->].
    + destruct (m_cache d !! key) as [v|] eqn:E; [by destruct Hkey; eauto|].
      by destruct (isValid (property r key)).
Qed.

Lemma prop_trace (r : Remote) (key : QString) (d : UPowerDevice) :
  trace (prop r key d) = trace (checkCache r key d).
Proof.
  unfold prop. run_prog. destruct (checkCache r key d) as [[[] d1] t1]. simpl.
  by rewrite app_nil_r.
Qed.

(** X3: after [slotChanged], the next [prop(key)] asks the service for all
    properties once and returns what the service says now: the value of
    the [GetAll] reply if it has the key, else the answer to the single
    lookup, else the null [QVariant]. *)
Theorem prop_after_slotChanged_is_fresh (r : Remote) (key : QString) (d : UPowerDevice) :
  let out := prop r key (final (slotChanged d)) in
  occurrences is_Call_GetAll (trace out) = 1%nat ∧
  result out =
    match default ∅ (GetAll r) !! key with
    | Some v => v
    | None => service_answer r key
    end ∧
  m_cache (final out) =
    match default ∅ (GetAll r) !! key with
    | Some _ => default ∅ (GetAll r)
    | None => <[key := service_answer r key]> (default ∅ (GetAll r))
    end.
Proof.
  cbv zeta.
  assert (Hcleared : m_cache (final (slotChanged d)) = ∅) by done.
  destruct (prop_outcome r key (final (slotChanged d))) as [Hfinal Hresult].
  rewrite prop_trace, checkCache_trace. rewrite Hfinal in *.
  rewrite checkCache_final in *. cbv zeta in *. rewrite Hcleared in *.
  rewrite bool_decide_eq_true_2 in * by done. fold (service_answer r key) in *.
  destruct (default ∅ (GetAll r) !! key) as [v|] eqn:E.
  - rewrite E in Hresult. by injection Hresult as <-.
  - rewrite lookup_insert_eq in Hresult. by injection Hresult as <-.
Qed.

Lemma prop_keeps (r : Remote) (key k : QString) (d : UPowerDevice) (v : QVariant) :
  m_cache d !! k = Some v → m_cache (final (prop r key d)) !! k = Some v.
Proof.
  intros Hk. destruct (prop_outcome r key d) as [-> _]. by apply checkCache_keeps.
Qed.

(** [queryDeviceInterface] stops after reading "Type", or after reading
    "NativePath" as well. *)
Lemma queryDeviceInterface_final (r : Remote) (type : DeviceInterfaceType)
    (d : UPowerDevice) :
  let d1 := final (prop r (QLatin1String "Type") d) in
  final (queryDeviceInterface r type d) = d1 ∨
  final (queryDeviceInterface r type d) = final (prop r (QLatin1String "NativePath") d1).
Proof.
  unfold queryDeviceInterface, final, mbind, prog_bind, mret, prog_ret.
  destruct (prop r (QLatin1String "Type") d) as [[v d1] t1]. cbn [fst snd].
  destruct type; try (by left).
  destruct (case_label (toUInt v)) as [[]|]; try (by left).
  right. destruct (prop r (QLatin1String "NativePath") d1) as [[p d2] t2]. cbn [fst snd].
  by destruct (startsWith _ _).
Qed.

Lemma queryDeviceInterface_keeps (r : Remote) (type : DeviceInterfaceType)
    (k : QString) (d : UPowerDevice) (v : QVariant) :
  m_cache d !! k = Some v →
  m_cache (final (queryDeviceInterface r type d)) !! k = Some v.
Proof.
  intros Hk. destruct (queryDeviceInterface_final r type d) as [-> | ->];
    repeat apply prop_keeps; done.
Qed.

(** X4: [createDeviceInterface] hands out an object exactly when
    [queryDeviceInterface] says the type is supported, of the kind asked
    for: the generic interface always, the battery interface only on a
    device that supports it, and no other type ever.  When it hands out
    nothing it does nothing beyond the query; when it hands out an object,
    that object's constructor has run once, after the query. *)
Theorem createDeviceInterface_follows_query (r : Remote)
    (construct : DeviceInterfaceObject → M unit) (type : DeviceInterfaceType)
    (d : UPowerDevice) :
  let made := createDeviceInterface r construct type d in
  let supported := queryDeviceInterface r type d in
  (result made = None ↔ result supported = false) ∧
  (result made = Some new_GenericInterface ↔ type = GenericInterface) ∧
  (result made = Some new_Battery ↔ type = Battery ∧ result supported = true) ∧
  (result supported = false →
     final made = final supported ∧ trace made = trace supported) ∧
  (∀ object, result made = Some object →
     final made = final (construct object (final supported)) ∧
     trace made = trace supported ++ trace (construct object (final supported))).
Proof.
  cbv zeta.
  unfold createDeviceInterface, result, final, trace, mbind, prog_bind, mret, prog_ret.
  assert (Hother : type ≠ GenericInterface → type ≠ Battery →
                   (queryDeviceInterface r type d).1.1 = false).
  { intros Hg Hb. unfold queryDeviceInterface, mbind, prog_bind.
    destruct (prop r (QLatin1String "Type") d) as [[v d1] t1].
    by destruct type. }
  assert (Hgeneric : type = GenericInterface →
                     (queryDeviceInterface r type d).1.1 = true).
  { intros ->. unfold queryDeviceInterface, mbind, prog_bind.
    by destruct (prop r (QLatin1String "Type") d) as [[v d1] t1]. }
  destruct (queryDeviceInterface r type d) as [[b d1] t1]. cbn [fst snd] in *.
  destruct b; cbn [negb].
  - destruct type; try (by specialize (Hother ltac:(done) ltac:(done))).
    + destruct (construct new_GenericInterface d1) as [[[] d2] t2] eqn:Hmade.
      cbn. rewrite app_nil_r.
      split; [done|]. split; [done|]. split; [split; [done | by intros [? _]]|].
      split; [done|]. intros object [= <-]. by rewrite Hmade.
    + destruct (construct new_Battery d1) as [[[] d2] t2] eqn:Hmade.
      cbn. rewrite app_nil_r.
      split; [done|]. split; [done|]. split; [done|].
      split; [done|]. intros object [= <-]. by rewrite Hmade.
  - cbn. rewrite app_nil_r.
    split; [done|].
    split; [split; [done | intros Hg; by specialize (Hgeneric Hg)]|].
    split; [split; [done | by intros [_ ?]]|].
    split; [done|]. by intros object.
Qed.

(** The headset's battery object is made, after the query. *)
Lemma createDeviceInterface_follows_query_witness :
  result (createDeviceInterface headset_remote (sample_construct headset_remote)
            Battery fresh_device) = Some new_Battery ∧
  trace (createDeviceInterface silent_remote (sample_construct silent_remote)
           Battery fresh_device) = trace (queryDeviceInterface silent_remote Battery fresh_device).
Proof.
  split.
  - pose proof (createDeviceInterface_follows_query headset_remote
                  (sample_construct headset_remote) Battery fresh_device)
      as (_ & _ & Hbattery & _).
    apply Hbattery. split; [reflexivity | vm_compute; reflexivity].
  - pose proof (createDeviceInterface_follows_query silent_remote
                  (sample_construct silent_remote) Battery fresh_device)
      as (_ & _ & _ & Hnone & _).
    apply Hnone. vm_compute. reflexivity.
Defined.

(** X5: [product()] is the model name when the device has one; when it has
    none and the device offers no battery interface, it is the vendor
    name, the second read of "Model" inside [description()] being served
    by the cache; when it has none and the device offers the battery
    interface, it is the translated "%1 Battery" with the technology. *)
Theorem product_falls_back (tr : string → string → QString)
    (arg : QString → QString → QString) (r : Remote) (d : UPowerDevice) :
  let model_read := prop r (QLatin1String "Model") d in
  let model := toString (result model_read) in
  let battery := queryDeviceInterface r Battery (final model_read) in
  (model ≠ [] → product r tr arg d = (model, final model_read, trace model_read)) ∧
  (model = [] → result battery = false →
     result (product r tr arg d) = result (vendor r (final battery))) ∧
  (model = [] → result battery = true →
     result (product r tr arg d) =
       arg (tr "%1 Battery" "%1 is battery technology")
         (result (batteryTechnology r tr (final battery)))).
Proof.
  cbv zeta.
  destruct (prop_outcome r (QLatin1String "Model") d) as [_ Hmodel].
  pose proof (queryDeviceInterface_keeps r Battery (QLatin1String "Model") _ _ Hmodel)
    as Hkept.
  unfold product, description, result, final, trace, mbind, prog_bind, mret, prog_ret in *.
  destruct (prop r (QLatin1String "Model") d) as [[v d1] t1]. cbn [fst snd] in *.
  repeat split.
  - intros Hsome. destruct (toString v); [done|]. cbn. by rewrite app_nil_r.
  - intros Hnone Hplain. rewrite Hnone. cbn [isEmpty].
    destruct (queryDeviceInterface r Battery d1) as [[b d2] t2]. cbn [fst snd] in *.
    subst b. rewrite (prop_hit r _ d2 v Hkept), Hnone. cbn [isEmpty].
    by destruct (vendor r d2) as [[w d3] t3].
  - intros -> Hbattery. cbn [isEmpty].
    destruct (queryDeviceInterface r Battery d1) as [[b d2] t2]. cbn [fst snd] in *.
    subst b. by destruct (batteryTechnology r tr d2) as [[w d3] t3].
Qed.

(** The line-power supply without a model is called by its vendor. *)
Lemma product_falls_back_witness :
  result (product adapter_remote sample_tr sample_arg fresh_device) = QLatin1String "ACME".
Proof.
  pose proof (product_falls_back sample_tr sample_arg adapter_remote fresh_device)
    as (_ & Hvendor & _).
  rewrite Hvendor; vm_compute; reflexivity.
Defined.

End UPowerFurther.

(** * Further properties of the storage access *)

Section UDisks2Further.
Import UDisks2.

Lemma final_triple {A} (a : A) (s : StorageAccess) (tr : list Effect) :
  final (a, s, tr) = s.
Proof. reflexivity. Qed.

(** The two requests while something is in progress. *)
Lemma setup_busy (e : Env) (s : StorageAccess) :
  m_teardownInProgress s || m_setupInProgress s = true → setup e s = (false, s, []).
Proof. intros Hbusy. unfold setup. run_prog. by rewrite Hbusy. Qed.

Lemma teardown_busy (e : Env) (s : StorageAccess) :
  m_teardownInProgress s || m_setupInProgress s = true → teardown e s = (false, s, []).
Proof. intros Hbusy. unfold teardown. run_prog. by rewrite Hbusy. Qed.

Lemma unmount_outcome (e : Env) (s : StorageAccess) :
  let msg := createMethodCall UD2_DBUS_SERVICE (target_path e)
               UD2_DBUS_INTERFACE_FILESYSTEM (QLatin1String "Unmount")
               [Arg_QVariantMap ∅] in
  unmount e s = (callWithCallback e msg s_unmountTimeout, s,
                 [Call_withCallback msg s_unmountTimeout]).
Proof. reflexivity. Qed.

Lemma teardown_idle (e : Env) (s : StorageAccess) :
  m_setupInProgress s = false → m_teardownInProgress s = false →
  let msg := createMethodCall UD2_DBUS_SERVICE (target_path e)
               UD2_DBUS_INTERFACE_FILESYSTEM (QLatin1String "Unmount")
               [Arg_QVariantMap ∅] in
  teardown e s =
    (callWithCallback e msg s_unmountTimeout, set_teardownInProgress true s,
     [BroadcastActionRequested (QLatin1String "teardown");
      Call_withCallback msg s_unmountTimeout]).
Proof.
  intros Hsetup Hteardown. unfold teardown, mbind, prog_bind, get, modify, emit.
  rewrite Hsetup, Hteardown. cbn [orb]. by rewrite unmount_outcome.
Qed.

Lemma clearTextPath_nonempty_iff (e : Env) :
  clearTextPath e ≠ [] ↔ has_cleartext_sibling e.
Proof.
  split.
  - unfold clearTextPath, has_cleartext_sibling.
    destruct (Introspect e) as [nodeList|]; [|done].
    destruct (clearTextPath_nodes_found e nodeList)
      as [[-> _] | (name & Hin & _ & Hback)]; [done | by eauto].
  - intros Hsibling Hnone. by apply clearTextPath_empty_iff in Hnone.
Qed.

(** The object that [mount] and [unmount] address. *)
Lemma target_path_cases (e : Env) :
  (isEncryptedContainer e = true ∧ has_cleartext_sibling e ∧
   target_path e = clearTextPath e) ∨
  ((isEncryptedContainer e = false ∨ ¬ has_cleartext_sibling e) ∧
   target_path e = udi e).
Proof.
  unfold target_path, isLuksDevice.
  pose proof (clearTextPath_empty_iff e) as Hnone.
  destruct (isEncryptedContainer e); [|right; by eauto].
  destruct (clearTextPath e) as [|c path] eqn:Hct.
  - right. split; [right; by apply Hnone | done].
  - left. split; [done|]. split; [|done].
    apply clearTextPath_nonempty_iff. by rewrite Hct.
Qed.

(** X6: with nothing in progress, [teardown()] sets the teardown flag,
    broadcasts the request and sends one Unmount call with the unmount
    timeout, addressed to the cleartext volume when the device is an
    encrypted container with a discoverable one and to the device itself
    otherwise; it returns what sending the call returned. *)
Theorem teardown_sends_unmount (e : Env) (s : StorageAccess) :
  m_setupInProgress s = false → m_teardownInProgress s = false →
  ∃ path,
    let msg := createMethodCall UD2_DBUS_SERVICE path
                 UD2_DBUS_INTERFACE_FILESYSTEM (QLatin1String "Unmount")
                 [Arg_QVariantMap ∅] in
    teardown e s =
      (callWithCallback e msg s_unmountTimeout, set_teardownInProgress true s,
       [BroadcastActionRequested (QLatin1String "teardown");
        Call_withCallback msg s_unmountTimeout]) ∧
    (isEncryptedContainer e = true → has_cleartext_sibling e →
       path = clearTextPath e) ∧
    (isEncryptedContainer e = false ∨ ¬ has_cleartext_sibling e → path = udi e).
Proof.
  intros Hsetup Hteardown. exists (target_path e). cbv zeta.
  split; [by apply teardown_idle|].
  destruct (target_path_cases e) as [(Hluks & Hsib & ->) | (Hplain & ->)].
  - split; [done|]. intros [Hno | Hno]; [congruence | done].
  - split; [|done]. intros Hluks Hsib. destruct Hplain; [congruence | done].
Qed.

(** Tearing down the unlocked container unmounts [dm-0]. *)
Lemma teardown_sends_unmount_witness :
  trace (teardown (unlocked_env true) idle) =
    [BroadcastActionRequested (QLatin1String "teardown");
     Call_withCallback
       (createMethodCall UD2_DBUS_SERVICE (block_device_path (QLatin1String "dm-0"))
          UD2_DBUS_INTERFACE_FILESYSTEM (QLatin1String "Unmount") [Arg_QVariantMap ∅])
       s_unmountTimeout].
Proof.
  destruct (teardown_sends_unmount (unlocked_env true) idle eq_refl eq_refl)
    as (path & Hrun & Hcleartext & _).
  rewrite Hrun, Hcleartext.
  - vm_compute. reflexivity.
  - reflexivity.
  - apply clearTextPath_nonempty_iff. vm_compute. discriminate.
Defined.

(** X7: [mount()] sends one Mount call and changes no member; the call is
    addressed to the cleartext volume when the device is an encrypted
    container with a discoverable one and to the device itself otherwise,
    and carries the option "flush" exactly when the device's "IdType" is
    "vfat". *)
Theorem mount_call_target_and_options (e : Env) (s : StorageAccess) :
  ∃ path options,
    let msg := createMethodCall UD2_DBUS_SERVICE path
                 UD2_DBUS_INTERFACE_FILESYSTEM (QLatin1String "Mount")
                 [Arg_QVariantMap options] in
    mount e s = (callWithCallback e msg DefaultTimeout, s,
                 [Call_withCallback msg DefaultTimeout]) ∧
    (isEncryptedContainer e = true → has_cleartext_sibling e →
       path = clearTextPath e) ∧
    (isEncryptedContainer e = false ∨ ¬ has_cleartext_sibling e → path = udi e) ∧
    (toString (prop e (QLatin1String "IdType")) = QLatin1String "vfat" →
       options = {[ QLatin1String "options" :=
                      QVariant_fromString (QLatin1String "flush") ]}) ∧
    (toString (prop e (QLatin1String "IdType")) ≠ QLatin1String "vfat" →
       options = ∅).
Proof.
  exists (target_path e). eexists. cbv zeta. split; [reflexivity|].
  unfold qstring_eqb.
  destruct (target_path_cases e) as [(Hluks & Hsib & ->) | (Hplain & ->)].
  - split; [done|]. split; [intros [Hno | Hno]; [congruence | done]|].
    split; intros Htype; [by rewrite bool_decide_eq_true_2
                         | by rewrite bool_decide_eq_false_2].
  - split; [intros Hluks Hsib; destruct Hplain; [congruence | done]|].
    split; [done|].
    split; intros Htype; [by rewrite bool_decide_eq_true_2
                         | by rewrite bool_decide_eq_false_2].
Qed.

(** Mounting the unlocked container mounts [dm-0], without options. *)
Lemma mount_call_target_and_options_witness :
  trace (mount (unlocked_env false) idle) =
    [Call_withCallback
       (createMethodCall UD2_DBUS_SERVICE (block_device_path (QLatin1String "dm-0"))
          UD2_DBUS_INTERFACE_FILESYSTEM (QLatin1String "Mount") [Arg_QVariantMap ∅])
       DefaultTimeout].
Proof.
  destruct (mount_call_target_and_options (unlocked_env false) idle)
    as (path & options & Hrun & Hcleartext & _ & _ & Hplain).
  rewrite Hrun, Hcleartext, Hplain.
  - vm_compute. reflexivity.
  - vm_compute. discriminate.
  - reflexivity.
  - apply clearTextPath_nonempty_iff. vm_compute. discriminate.
Defined.

Lemma passphraseReply_consumes (e : Env) (passphrase : QString) (s : StorageAccess) :
  m_passphraseRequested (final (passphraseReply e passphrase s)) = false.
Proof.
  unfold passphraseReply, callCryptoSetup. run_prog.
  destruct (m_passphraseRequested s) eqn:Hasked; [|done].
  by destruct passphrase.
Qed.

Lemma passphraseReply_unasked (e : Env) (passphrase : QString) (s : StorageAccess) :
  m_passphraseRequested s = false → passphraseReply e passphrase s = (tt, s, []).
Proof. intros Hasked. unfold passphraseReply. run_prog. by rewrite Hasked. Qed.

(** X8: a passphrase reply is honoured at most once per request: one that
    arrives when no passphrase is awaited changes nothing and sends
    nothing, and after any reply no passphrase is awaited any more, so a
    second reply is ignored. *)
Theorem passphraseReply_at_most_once (e e' : Env) (passphrase passphrase' : QString)
    (s : StorageAccess) :
  let s1 := final (passphraseReply e passphrase s) in
  (m_passphraseRequested s = false → passphraseReply e passphrase s = (tt, s, [])) ∧
  m_passphraseRequested s1 = false ∧
  passphraseReply e' passphrase' s1 = (tt, s1, []).
Proof.
  cbv zeta. split; [apply passphraseReply_unasked|].
  split; [apply passphraseReply_consumes|].
  apply passphraseReply_unasked, passphraseReply_consumes.
Qed.

(** A reply to an object that awaits none is dropped. *)
Lemma passphraseReply_at_most_once_witness :
  passphraseReply locked_env (QLatin1String "hunter2") idle = (tt, idle, []).
Proof.
  pose proof (passphraseReply_at_most_once locked_env locked_env
                (QLatin1String "hunter2") [] idle) as (Hstray & _ & _).
  apply Hstray. reflexivity.
Defined.

Lemma passphraseReply_unlock (e : Env) (passphrase : QString) (s : StorageAccess) :
  m_passphraseRequested s = true → passphrase ≠ [] →
  passphraseReply e passphrase s =
    (tt, set_passphraseRequested false s,
     [UnregisterObject (m_lastReturnObject s);
      Call_withCallback
        (createMethodCall UD2_DBUS_SERVICE (udi e) UD2_DBUS_INTERFACE_ENCRYPTED
           (QLatin1String "Unlock") [Arg_QString passphrase; Arg_QVariantMap ∅])
        DefaultTimeout]).
Proof.
  intros Hasked Hsome. unfold passphraseReply, callCryptoSetup. run_prog.
  rewrite Hasked. by destruct passphrase.
Qed.

(** The signal that [checkAccessibility] adds, if any. *)
Lemma checkAccessibility_trace_cases (e : Env) (s : StorageAccess) :
  trace (checkAccessibility e s) = [] ∨
  trace (checkAccessibility e s) = [Emit_accessibilityChanged (isAccessible e) (udi e)].
Proof.
  rewrite checkAccessibility_outcome. unfold trace. cbn [snd].
  destruct (eqb _ _); by eauto.
Qed.

Lemma mount_keeps_state (e : Env) (s : StorageAccess) :
  mount e s = (result (mount e s), s, trace (mount e s)).
Proof. by destruct (mount_outcome e s) as [options ->]. Qed.

(** [slotDBusReply] while a setup is in progress. *)
Lemma slotDBusReply_during_setup (e : Env) (s : StorageAccess) :
  m_setupInProgress s = true →
  slotDBusReply e s =
    if isEncryptedContainer e && negb (isAccessible e)
    then (tt, s, trace (mount e s))
    else (tt, set_isAccessible (isAccessible e) (set_setupInProgress false s),
          InvalidateCache ::
          BroadcastActionDone (QLatin1String "setup") NoError [] ::
          trace (checkAccessibility e (set_setupInProgress false s))).
Proof.
  intros Hsetup. unfold slotDBusReply, mbind, prog_bind, get, modify, emit, isLuksDevice.
  rewrite Hsetup.
  destruct (isEncryptedContainer e && negb (isAccessible e)).
  - rewrite mount_keeps_state. unfold mret, prog_ret. by rewrite app_nil_r.
  - by rewrite checkAccessibility_outcome.
Qed.



(** [slotDBusReply] while a teardown, and no setup, is in progress. *)
Lemma slotDBusReply_during_teardown (e : Env) (s : StorageAccess) :
  m_setupInProgress s = false → m_teardownInProgress s = true →
  slotDBusReply e s =
    if isEmpty (clearTextPath e)
    then (tt, set_isAccessible (isAccessible e) (set_teardownInProgress false s),
          trace (eject_or_powerOff e (drivePath e) s) ++
          InvalidateCache ::
          BroadcastActionDone (QLatin1String "teardown") NoError [] ::
          trace (checkAccessibility e (set_teardownInProgress false s)))
    else (tt, s,
          [Call_withCallback
             (createMethodCall UD2_DBUS_SERVICE
                (if isEncryptedContainer e then udi e
                 else toObjectPath (prop e (QLatin1String "CryptoBackingDevice")))
                UD2_DBUS_INTERFACE_ENCRYPTED (QLatin1String "Lock") [Arg_QVariantMap ∅])
             DefaultTimeout]).
Proof.
  intros Hsetup Hteardown.
  pose proof (clearTextPath_not_root e) as Hroot.
  pose proof (eject_or_powerOff_outcome e (drivePath e) s) as Hattempt.
  unfold slotDBusReply, mbind, prog_bind, get, modify, emit, isLuksDevice, qstring_eqb.
  rewrite Hsetup, Hteardown. rewrite (bool_decide_eq_false_2 _ Hroot).
  rewrite !andb_true_r.
  destruct (isEmpty (clearTextPath e)) eqn:Hempty; cbn [negb].
  - rewrite andb_false_r.
    assert (drivePath_guard (drivePath e) = true) as ->.
    { unfold drivePath_guard. by destruct (drivePath e). }
    rewrite Hattempt, checkAccessibility_outcome. reflexivity.
  - rewrite andb_true_r. unfold callCryptoTeardown, mbind, prog_bind, emit, mret, prog_ret.
    by destruct (isEncryptedContainer e).
Qed.

(** X10: a reply that arrives while a teardown is in progress ends the
    teardown only once no cleartext volume is left: while one is
    discoverable the reply makes [slotDBusReply] send a Lock call (to the
    device itself if it is the encrypted container, else to its crypto
    backing device) and leaves the teardown in progress; otherwise the
    flag is cleared and the end of the teardown is broadcast once,
    without error. *)
Theorem slotDBusReply_locks_before_ending_teardown (e : Env) (s : StorageAccess) :
  m_setupInProgress s = false → m_teardownInProgress s = true →
  let out := slotDBusReply e s in
  (has_cleartext_sibling e →
     final out = s ∧
     trace out =
       [Call_withCallback
          (createMethodCall UD2_DBUS_SERVICE
             (if isEncryptedContainer e then udi e
              else toObjectPath (prop e (QLatin1String "CryptoBackingDevice")))
             UD2_DBUS_INTERFACE_ENCRYPTED (QLatin1String "Lock") [Arg_QVariantMap ∅])
          DefaultTimeout]) ∧
  (¬ has_cleartext_sibling e →
     final out = set_isAccessible (isAccessible e) (set_teardownInProgress false s) ∧
     occurrences is_BroadcastActionDone (trace out) = 1%nat ∧
     BroadcastActionDone (QLatin1String "teardown") NoError [] ∈ trace out).
Proof.
  intros Hsetup Hteardown. cbv zeta.
  rewrite (slotDBusReply_during_teardown e s Hsetup Hteardown). split.
  - intros Hsib%clearTextPath_nonempty_iff.
    destruct (clearTextPath e); [done|]. done.
  - intros Hnone%clearTextPath_empty_iff. rewrite Hnone. cbn [isEmpty].
    unfold final, trace at 1 3. cbn [fst snd]. split; [done|].
    assert (Hattempt : occurrences is_BroadcastActionDone
                         (trace (eject_or_powerOff e (drivePath e) s)) = 0%nat).
    { unfold eject_or_powerOff, trace, emit, mret, prog_ret.
      by repeat destruct (_ && _). }
    split.
    + rewrite occurrences_app, Hattempt.
      destruct (checkAccessibility_trace_cases e (set_teardownInProgress false s))
        as [-> | ->]; done.
    + apply elem_of_app. right. right. left.
Qed.

(** After the unmount of [dm-0] the container is locked first. *)
Lemma slotDBusReply_locks_before_ending_teardown_witness :
  let unmounting := set_teardownInProgress true idle in
  final (slotDBusReply (unlocked_env false) unmounting) = unmounting.
Proof.
  pose proof (slotDBusReply_locks_before_ending_teardown (unlocked_env false)
                (set_teardownInProgress true idle) eq_refl eq_refl) as [Hlock _].
  apply Hlock. apply clearTextPath_nonempty_iff. vm_compute. discriminate.
Defined.

(** [slotDBusError] in each of its three cases. *)
Lemma slotDBusError_during_setup (e : Env) (name message : QString) (s : StorageAccess) :
  m_setupInProgress s = true →
  slotDBusError e name message s =
    (tt, set_isAccessible (isAccessible e) (set_setupInProgress false s),
     BroadcastActionDone (QLatin1String "setup") (errorToSolidError e name)
       (errorToString e name ++ QLatin1String ": " ++ message) ::
     trace (checkAccessibility e (set_setupInProgress false s))).
Proof.
  intros Hsetup. unfold slotDBusError, mbind, prog_bind, get, modify, emit.
  rewrite Hsetup. by rewrite checkAccessibility_outcome.
Qed.

Lemma slotDBusError_during_teardown (e : Env) (name message : QString)
    (s : StorageAccess) :
  m_setupInProgress s = false → m_teardownInProgress s = true →
  slotDBusError e name message s =
    (tt, set_isAccessible (isAccessible e) (set_teardownInProgress false s),
     BroadcastActionDone (QLatin1String "teardown") (errorToSolidError e name)
       (errorToString e name ++ QLatin1String ": " ++ message) ::
     trace (checkAccessibility e (set_teardownInProgress false s))).
Proof.
  intros Hsetup Hteardown. unfold slotDBusError, mbind, prog_bind, get, modify, emit.
  rewrite Hsetup, Hteardown. by rewrite checkAccessibility_outcome.
Qed.

Lemma slots_idle (e : Env) (name message : QString) (s : StorageAccess) :
  m_setupInProgress s = false → m_teardownInProgress s = false →
  slotDBusError e name message s = (tt, s, []) ∧ slotDBusReply e s = (tt, s, []).
Proof.
  intros Hsetup Hteardown.
  unfold slotDBusError, slotDBusReply, mbind, prog_bind, get.
  by rewrite Hsetup, Hteardown.
Qed.

(** X11: an error reply ends the operation in progress and nothing else:
    the flag of that operation (the setup if both flags are set) is
    cleared, the end of the operation is broadcast once with the
    translated error code and the text "<translated name>: <message>",
    and the accessibility is rechecked; with nothing in progress an error
    and a reply alike change nothing and emit nothing. *)
Theorem slotDBusError_ends_the_operation (e : Env) (name message : QString)
    (s : StorageAccess) :
  let out := slotDBusError e name message s in
  let report action :=
    BroadcastActionDone (QLatin1String action) (errorToSolidError e name)
      (errorToString e name ++ QLatin1String ": " ++ message) in
  (m_setupInProgress s = true →
     final out = set_isAccessible (isAccessible e) (set_setupInProgress false s) ∧
     ∃ rest, trace out = report "setup" :: rest ∧
             occurrences is_BroadcastActionDone rest = 0%nat) ∧
  (m_setupInProgress s = false → m_teardownInProgress s = true →
     final out = set_isAccessible (isAccessible e) (set_teardownInProgress false s) ∧
     ∃ rest, trace out = report "teardown" :: rest ∧
             occurrences is_BroadcastActionDone rest = 0%nat) ∧
  (m_setupInProgress s = false → m_teardownInProgress s = false →
     out = (tt, s, []) ∧ slotDBusReply e s = (tt, s, [])).
Proof.
  cbv zeta. split; [|split].
  - intros Hsetup. rewrite (slotDBusError_during_setup e name message s Hsetup).
    split; [done|]. eexists. split; [reflexivity|].
    by destruct (checkAccessibility_trace_cases e (set_setupInProgress false s))
      as [-> | ->].
  - intros Hsetup Hteardown.
    rewrite (slotDBusError_during_teardown e name message s Hsetup Hteardown).
    split; [done|]. eexists. split; [reflexivity|].
    by destruct (checkAccessibility_trace_cases e (set_teardownInProgress false s))
      as [-> | ->].
  - apply slots_idle.
Qed.

(** A failed mount ends the setup of the plain partition. *)
Lemma slotDBusError_ends_the_operation_witness :
  m_setupInProgress
    (final (slotDBusError (sample_env false true [])
              (QLatin1String "org.freedesktop.UDisks2.Error.Failed")
              (QLatin1String "mount failed") (set_setupInProgress true idle))) = false.
Proof.
  pose proof (slotDBusError_ends_the_operation (sample_env false true [])
                (QLatin1String "org.freedesktop.UDisks2.Error.Failed")
                (QLatin1String "mount failed") (set_setupInProgress true idle))
    as [Hsetup _].
  destruct (Hsetup eq_refl) as [-> _]. reflexivity.
Defined.

(** The flags after an accepted [setup()] or [teardown()]. *)
Lemma setup_flags_idle (e : Env) (s : StorageAccess) :
  m_setupInProgress s = false → m_teardownInProgress s = false →
  m_setupInProgress (final (setup e s)) = true ∧
  m_teardownInProgress (final (setup e s)) = false.
Proof.
  intros Hsetup Hteardown. rewrite (setup_idle e s Hsetup Hteardown).
  destruct (isEncryptedContainer e && isEmpty (clearTextPath e)).
  - rewrite requestPassphrase_outcome. by unfold final.
  - rewrite mount_keeps_state. by unfold final.
Qed.

Lemma flags_not_raised_refl (s : StorageAccess) : flags_not_raised s s.
Proof. split; by left. Qed.

(** Replies, errors, passphrases and device changes raise no flag. *)
Lemma occur_flags_not_raised (e : Env) (o : Occurrence) (s : StorageAccess) :
  o ≠ Do_setup → o ≠ Do_teardown → flags_not_raised s (final (occur e o s)).
Proof.
  intros Hs Ht. destruct o as [| |passphrase| |name message|]; try done; simpl.
  - unfold passphraseReply, callCryptoSetup. run_prog.
    destruct (m_passphraseRequested s); [|apply flags_not_raised_refl].
    destruct passphrase; split; simpl; by eauto.
  - destruct (m_setupInProgress s) eqn:Hsetup.
    + rewrite (slotDBusReply_during_setup e s Hsetup).
      destruct (_ && _); [apply flags_not_raised_refl|].
      split; simpl; by eauto.
    + destruct (m_teardownInProgress s) eqn:Hteardown.
      * rewrite (slotDBusReply_during_teardown e s Hsetup Hteardown).
        destruct (isEmpty _); [|apply flags_not_raised_refl].
        split; simpl; by eauto.
      * destruct (slots_idle e [] [] s Hsetup Hteardown) as [_ ->].
        apply flags_not_raised_refl.
  - destruct (m_setupInProgress s) eqn:Hsetup.
    + rewrite (slotDBusError_during_setup e name message s Hsetup).
      split; simpl; by eauto.
    + destruct (m_teardownInProgress s) eqn:Hteardown.
      * rewrite (slotDBusError_during_teardown e name message s Hsetup Hteardown).
        split; simpl; by eauto.
      * destruct (slots_idle e name message s Hsetup Hteardown) as [-> _].
        apply flags_not_raised_refl.
  - rewrite checkAccessibility_outcome. split; simpl; by eauto.
Qed.

Lemma occur_one_at_a_time (e : Env) (o : Occurrence) (s : StorageAccess) :
  one_at_a_time s → one_at_a_time (final (occur e o s)).
Proof.
  unfold one_at_a_time. intros Hone.
  assert (Hother : o ≠ Do_setup → o ≠ Do_teardown →
            m_setupInProgress (final (occur e o s)) &&
            m_teardownInProgress (final (occur e o s)) = false).
  { intros Hs Ht.
    destruct (occur_flags_not_raised e o s Hs Ht) as [[-> | ->] [-> | ->]];
      try done; by rewrite ?andb_false_r. }
  destruct o; try (by apply Hother); clear Hother.
  - simpl. unfold mbind, prog_bind, mret, prog_ret.
    destruct (m_teardownInProgress s || m_setupInProgress s) eqn:Hbusy.
    + rewrite (setup_busy e s Hbusy). done.
    + apply orb_false_elim in Hbusy as [Hteardown Hsetup].
      destruct (setup_flags_idle e s Hsetup Hteardown) as [H1 H2].
      unfold final in *. destruct (setup e s) as [[b s1] t1]. simpl in *.
      by rewrite H1, H2.
  - simpl. unfold mbind, prog_bind, mret, prog_ret.
    destruct (m_teardownInProgress s || m_setupInProgress s) eqn:Hbusy.
    + rewrite (teardown_busy e s Hbusy). done.
    + apply orb_false_elim in Hbusy as [Hteardown Hsetup].
      pose proof (teardown_idle e s Hsetup Hteardown) as Hrun. cbv zeta in Hrun.
      rewrite Hrun. unfold final. simpl. by rewrite Hsetup.
Qed.

(** X12: setup and teardown are never both in progress through the
    object's own doing: from a state where at most one flag is set, any
    sequence of [setup()], [teardown()], passphrase replies, call replies,
    call errors and accessibility checks, in any environments, leads to a
    state where at most one flag is set. *)
Theorem one_operation_at_a_time (h : list (Env * Occurrence)) (s : StorageAccess) :
  one_at_a_time s → one_at_a_time (final (history h s)).
Proof.
  revert s. induction h as [|[e o] h IH]; intros s Hone; [done|].
  simpl. unfold mbind, prog_bind.
  pose proof (occur_one_at_a_time e o s Hone) as Hstep.
  specialize (IH (final (occur e o s)) Hstep).
  unfold final in *. destruct (occur e o s) as [[[] s1] t1]. simpl in *.
  by destruct (history h s1) as [[[] s2] t2].
Qed.

(** A teardown requested in the middle of a setup does not start. *)
Lemma one_operation_at_a_time_witness :
  one_at_a_time
    (final (history [(locked_env, Do_setup); (locked_env, Do_teardown);
                     (locked_env, Do_passphraseReply (QLatin1String "hunter2"));
                     (unlocked_env false, Do_slotDBusReply);
                     (unlocked_env false, Do_teardown)] idle)).
Proof.
  apply (one_operation_at_a_time _ idle). reflexivity.
Defined.

(** X13: once [setup()] or [teardown()] has been accepted, every further
    [setup()] and [teardown()] is refused without any effect, in whatever
    state the bus is, for as long as the flag stays set; this includes a
    setup whose passphrase prompt could not be reached. *)
Theorem accepted_request_blocks_the_next (e e' : Env) (s : StorageAccess) :
  m_setupInProgress s = false → m_teardownInProgress s = false →
  let s1 := final (setup e s) in
  let s2 := final (teardown e s) in
  setup e' s1 = (false, s1, []) ∧ teardown e' s1 = (false, s1, []) ∧
  setup e' s2 = (false, s2, []) ∧ teardown e' s2 = (false, s2, []).
Proof.
  intros Hsetup Hteardown. cbv zeta.
  destruct (setup_flags_idle e s Hsetup Hteardown) as [Hset _].
  assert (Htear : m_teardownInProgress (final (teardown e s)) = true).
  { pose proof (teardown_idle e s Hsetup Hteardown) as Hrun. cbv zeta in Hrun.
    by rewrite Hrun. }
  repeat split;
    (apply setup_busy || apply teardown_busy);
    rewrite ?Hset, ?Htear; by rewrite ?orb_true_r.
Qed.

(** While the passphrase dialog of the locked container is open, a second
    setup is refused. *)
Lemma accepted_request_blocks_the_next_witness :
  let asked := final (setup locked_env idle) in
  setup locked_env asked = (false, asked, []).
Proof.
  apply (accepted_request_blocks_the_next locked_env locked_env idle); reflexivity.
Defined.

(** X14: an error reply releases the guard: after an accepted [setup()] or
    [teardown()] followed by an error, neither operation is in progress,
    so the next request is accepted again. *)
Theorem error_reply_releases_the_guard (e e' e'' : Env) (name message : QString)
    (s : StorageAccess) :
  m_setupInProgress s = false → m_teardownInProgress s = false →
  let after_setup := final (slotDBusError e' name message (final (setup e s))) in
  let after_teardown := final (slotDBusError e' name message (final (teardown e s))) in
  (m_setupInProgress after_setup = false ∧ m_teardownInProgress after_setup = false ∧
   m_setupInProgress (final (setup e'' after_setup)) = true) ∧
  (m_setupInProgress after_teardown = false ∧
   m_teardownInProgress after_teardown = false ∧
   m_teardownInProgress (final (teardown e'' after_teardown)) = true).
Proof.
  intros Hsetup Hteardown. cbv zeta.
  destruct (setup_flags_idle e s Hsetup Hteardown) as [Hset Hnot].
  pose proof (teardown_idle e s Hsetup Hteardown) as Hrun. cbv zeta in Hrun.
  split.
  - rewrite (slotDBusError_during_setup e' name message _ Hset).
    unfold final at 1 3 5. cbn [fst snd].
    assert (Hidle : m_setupInProgress
                      (set_isAccessible (isAccessible e')
                         (set_setupInProgress false (final (setup e s)))) = false ∧
                    m_teardownInProgress
                      (set_isAccessible (isAccessible e')
                         (set_setupInProgress false (final (setup e s)))) = false).
    { by split. }
    destruct Hidle as [H1 H2]. split; [done|]. split; [done|].
    by apply setup_flags_idle.
  - assert (Hflags : m_setupInProgress (final (teardown e s)) = false ∧
                     m_teardownInProgress (final (teardown e s)) = true).
    { by rewrite Hrun. }
    destruct Hflags as [Hs1 Ht1].
    rewrite (slotDBusError_during_teardown e' name message _ Hs1 Ht1).
    rewrite !final_triple.
    set (after := set_isAccessible (isAccessible e')
                    (set_teardownInProgress false (final (teardown e s)))).
    assert (Hs2 : m_setupInProgress after = false) by done.
    assert (Ht2 : m_teardownInProgress after = false) by done.
    split; [done|]. split; [done|].
    pose proof (teardown_idle e'' after Hs2 Ht2) as Hagain. cbv zeta in Hagain.
    by rewrite Hagain.
Qed.

(** After a failed mount of the plain partition a new setup starts. *)
Lemma error_reply_releases_the_guard_witness :
  let plain := sample_env false true [] in
  let failed := final (slotDBusError plain [] [] (final (setup plain idle))) in
  m_setupInProgress failed = false ∧ m_teardownInProgress failed = false ∧
  m_setupInProgress (final (setup plain failed)) = true.
Proof.
  apply (error_reply_releases_the_guard (sample_env false true [])
           (sample_env false true []) (sample_env false true []) [] [] idle);
    reflexivity.
Defined.

(** X15: a setup or teardown announced by a peer sets the flag, whatever
    is in progress, and emits the matching signal; local requests are then
    refused until the peer's end of operation arrives, which clears the
    flag, rechecks the accessibility (the cached value becomes the
    recomputed one, with [accessibilityChanged] emitted if they differ)
    and last emits the done signal with the error and text it was
    given. *)
Theorem peer_operations_block_and_release (e e' : Env) (error : ErrorType)
    (text : QString) (s : StorageAccess) :
  let s1 := final (slotSetupRequested e s) in
  let s2 := final (slotTeardownRequested e s) in
  let recheck :=
    if eqb (m_isAccessible s) (isAccessible e') then []
    else [Emit_accessibilityChanged (isAccessible e') (udi e')] in
  (slotSetupRequested e s = (tt, set_setupInProgress true s, [Emit_setupRequested (udi e)]) ∧
   setup e' s1 = (false, s1, []) ∧ teardown e' s1 = (false, s1, []) ∧
   m_setupInProgress (final (slotSetupDone e' error text s1)) = false ∧
   last (trace (slotSetupDone e' error text s1)) = Some (Emit_setupDone error text (udi e')) ∧
   slotSetupDone e' error text s1 =
     (tt, set_isAccessible (isAccessible e') (set_setupInProgress false s1),
      recheck ++ [Emit_setupDone error text (udi e')]) ∧
   m_isAccessible (final (slotSetupDone e' error text s1)) = isAccessible e') ∧
  (slotTeardownRequested e s =
     (tt, set_teardownInProgress true s, [Emit_teardownRequested (udi e)]) ∧
   setup e' s2 = (false, s2, []) ∧ teardown e' s2 = (false, s2, []) ∧
   m_teardownInProgress (final (slotTeardownDone e' error text s2)) = false ∧
   last (trace (slotTeardownDone e' error text s2)) =
     Some (Emit_teardownDone error text (udi e')) ∧
   slotTeardownDone e' error text s2 =
     (tt, set_isAccessible (isAccessible e') (set_teardownInProgress false s2),
      recheck ++ [Emit_teardownDone error text (udi e')]) ∧
   m_isAccessible (final (slotTeardownDone e' error text s2)) = isAccessible e').
Proof.
  cbv zeta. split.
  - split; [done|].
    split; [apply setup_busy; simpl; apply orb_true_r|].
    split; [apply teardown_busy; simpl; apply orb_true_r|].
    unfold slotSetupDone, mbind, prog_bind, modify, emit.
    rewrite checkAccessibility_outcome. unfold final, trace. cbn [fst snd].
    split; [done|]. split; [by destruct (eqb _ _)|]. split; [|done].
    by destruct (eqb _ _).
  - split; [done|].
    split; [by apply setup_busy|].
    split; [by apply teardown_busy|].
    unfold slotTeardownDone, mbind, prog_bind, modify, emit.
    rewrite checkAccessibility_outcome. unfold final, trace. cbn [fst snd].
    split; [done|]. split; [by destruct (eqb _ _)|]. split; [|done].
    by destruct (eqb _ _).
Qed.

Lemma QLatin1String_inj (a b : string) : QLatin1String a = QLatin1String b → a = b.
Proof.
  unfold QLatin1String. intros H.
  assert (Hinj : Inj (=) (=) Ascii.N_of_ascii).
  { intros x y Hxy. rewrite <- (Ascii.ascii_N_embedding x), <- (Ascii.ascii_N_embedding y).
    by rewrite Hxy. }
  apply (inj (fmap Ascii.N_of_ascii)) in H.
  rewrite <- (String.string_of_list_ascii_of_string a),
          <- (String.string_of_list_ascii_of_string b).
  by rewrite H.
Qed.

Lemma wrap_int_succ (n : Z) :
  (- 2 ^ 31 ≤ n < 2 ^ 31)%Z →
  wrap_int (n + 1) = (if bool_decide (n = 2 ^ 31 - 1) then - 2 ^ 31 else n + 1)%Z.
Proof.
  intros Hrange. unfold wrap_int. case_bool_decide as Hmax.
  - subst n. reflexivity.
  - rewrite Z.mod_small; lia.
Qed.

(** X16: the return object paths are numbered: two counter values give
    two different paths, and a request advances the counter by one,
    wrapping from 2^31 - 1 to -2^31; so two passphrase requests in a row
    never register the same return object. *)
Theorem generateReturnObjectPath_numbers_the_objects (s s' : StorageAccess) :
  (- 2 ^ 31 ≤ number s < 2 ^ 31)%Z →
  (number s ≠ number s' →
     result (generateReturnObjectPath s) ≠ result (generateReturnObjectPath s')) ∧
  number (final (generateReturnObjectPath s)) =
    (if bool_decide (number s = 2 ^ 31 - 1) then - 2 ^ 31 else number s + 1)%Z ∧
  result (generateReturnObjectPath (final (generateReturnObjectPath s))) ≠
    result (generateReturnObjectPath s).
Proof.
  intros Hrange.
  assert (Hdistinct : ∀ a b : StorageAccess, number a ≠ number b →
            result (generateReturnObjectPath a) ≠ result (generateReturnObjectPath b)).
  { intros a b Hne Heq. apply Hne.
    unfold generateReturnObjectPath, QString_number in Heq. run_prog.
    apply app_inv_head in Heq. apply QLatin1String_inj in Heq.
    by apply (inj pretty) in Heq. }
  assert (Hnext : number (final (generateReturnObjectPath s)) =
            (if bool_decide (number s = 2 ^ 31 - 1) then - 2 ^ 31 else number s + 1)%Z).
  { unfold generateReturnObjectPath. run_prog. by apply wrap_int_succ. }
  split; [apply Hdistinct|]. split; [done|].
  apply Hdistinct. rewrite Hnext. case_bool_decide; lia.
Qed.

(** The first two return objects are number 1 and number 2. *)
Lemma generateReturnObjectPath_numbers_the_objects_witness :
  result (generateReturnObjectPath (final (generateReturnObjectPath idle))) ≠
    result (generateReturnObjectPath idle).
Proof.
  apply (generateReturnObjectPath_numbers_the_objects idle idle).
  simpl. lia.
Defined.

(** X17: with a non-empty home path, a volume is ignored when it carries
    the "HintIgnore" hint or has no file path (it is not mounted), and
    otherwise exactly when its file path lies neither under "/media/" nor
    under "/run/media/" nor under the home path. *)
Theorem isIgnored_outside_user_paths (e : Env) (homePath : QString) :
  homePath ≠ [] →
  (toBool (prop e (QLatin1String "HintIgnore")) = true → isIgnored e homePath = true) ∧
  (filePath e = [] → isIgnored e homePath = true) ∧
  (isIgnored e homePath = false ↔
     toBool (prop e (QLatin1String "HintIgnore")) = false ∧
     (QLatin1String "/media/" `prefix_of` filePath e ∨
      QLatin1String "/run/media/" `prefix_of` filePath e ∨
      homePath `prefix_of` filePath e)).
Proof.
  intros Hhome. unfold isIgnored.
  rewrite <- !startsWith_prefix_of.
  destruct (toBool (prop e (QLatin1String "HintIgnore"))).
  - split; [done|]. split; [done|]. split; [done | by intros [? _]].
  - split; [done|]. split.
    + intros ->. by destruct homePath.
    + rewrite negb_false_iff, !orb_true_iff. intuition.
Qed.

(** The stick mounted under "/media/foo/bar" is shown. *)
Lemma isIgnored_outside_user_paths_witness :
  isIgnored two_mounts_env (QLatin1String "/home/user") = false.
Proof.
  pose proof (isIgnored_outside_user_paths two_mounts_env (QLatin1String "/home/user"))
    as (_ & _ & Hshown).
  - vm_compute. discriminate.
  - apply Hshown. split; [reflexivity|]. left. vm_compute. by eexists.
Defined.

(** The scan of [clearTextPath] stops at the first named node whose crypto
    backing device is this device. *)
Lemma clearTextPath_nodes_first (e : Env) (nodeList : list (option QString)) :
  clearTextPath_nodes e nodeList ≠ [] →
  ∃ pre name post,
    nodeList = pre ++ Some name :: post ∧
    clearTextPath_nodes e nodeList = block_device_path name ∧
    toObjectPath (Device_prop e (block_device_path name)
                    (QLatin1String "CryptoBackingDevice")) = udi e ∧
    ∀ other, Some other ∈ pre →
      toObjectPath (Device_prop e (block_device_path other)
                      (QLatin1String "CryptoBackingDevice")) ≠ udi e.
Proof.
  induction nodeList as [|[name|] rest IH]; simpl; [done| |].
  - fold (block_device_path name). unfold qstring_eqb. case_bool_decide as Heq.
    + intros _. exists [], name, rest. repeat split; try done.
      intros other Hin. by apply elem_of_nil in Hin.
    + intros Hfound. destruct (IH Hfound) as (pre & name' & post & -> & Hpath & Hback & Hpre).
      exists (Some name :: pre), name', post. repeat split; try done.
      intros other [[= ->] | Hin]%elem_of_cons; [done | by apply Hpre].
  - intros Hfound. destruct (IH Hfound) as (pre & name' & post & -> & Hpath & Hback & Hpre).
    exists (None :: pre), name', post. repeat split; try done.
    intros other [[=] | Hin]%elem_of_cons. by apply Hpre.
Qed.

(** X18: when a cleartext sibling is discoverable, [clearTextPath()] is the
    object path, under "/org/freedesktop/UDisks2/block_devices/", of the
    first named node of the Introspect reply whose "CryptoBackingDevice"
    is this device; it is never "/", and it is empty exactly when no
    sibling is discoverable. *)
Theorem clearTextPath_is_the_first_match (e : Env) :
  clearTextPath e ≠ QLatin1String "/" ∧
  (clearTextPath e = [] ↔ ¬ has_cleartext_sibling e) ∧
  (has_cleartext_sibling e →
   ∃ pre name post,
     Introspect e = Some (pre ++ Some name :: post) ∧
     clearTextPath e =
       QLatin1String "/org/freedesktop/UDisks2/block_devices/" ++ name ∧
     toObjectPath (Device_prop e (clearTextPath e)
                     (QLatin1String "CryptoBackingDevice")) = udi e ∧
     ∀ other, Some other ∈ pre →
       toObjectPath (Device_prop e (block_device_path other)
                       (QLatin1String "CryptoBackingDevice")) ≠ udi e).
Proof.
  split; [apply clearTextPath_not_root|]. split; [apply clearTextPath_empty_iff|].
  intros Hfound%clearTextPath_nonempty_iff. unfold clearTextPath in *.
  destruct (Introspect e) as [nodeList|]; [|done].
  destruct (clearTextPath_nodes_first e nodeList Hfound)
    as (pre & name & post & -> & Hpath & Hback & Hpre).
  exists pre, name, post. rewrite Hpath. repeat split; done.
Qed.

(** For the unlocked container the match is [dm-0], the fourth node. *)
Lemma clearTextPath_is_the_first_match_witness :
  ∃ pre name post,
    Introspect (unlocked_env true) = Some (pre ++ Some name :: post) ∧
    clearTextPath (unlocked_env true) =
      QLatin1String "/org/freedesktop/UDisks2/block_devices/" ++ name ∧
    toObjectPath (Device_prop (unlocked_env true) (clearTextPath (unlocked_env true))
                    (QLatin1String "CryptoBackingDevice")) = udi (unlocked_env true) ∧
    ∀ other, Some other ∈ pre →
      toObjectPath (Device_prop (unlocked_env true) (block_device_path other)
                      (QLatin1String "CryptoBackingDevice")) ≠ udi (unlocked_env true).
Proof.
  apply (clearTextPath_is_the_first_match (unlocked_env true)).
  apply clearTextPath_nonempty_iff. vm_compute. discriminate.
Defined.

(** X19: a device that is not an encrypted container is accessible exactly
    when it is mounted; an encrypted container is accessible exactly when
    a cleartext sibling is discoverable and that sibling is mounted, and
    without a discoverable sibling it is neither accessible nor has a
    file path. *)
Theorem isAccessible_through_cleartext (e : Env) :
  (isEncryptedContainer e = false → isAccessible e = isMounted e) ∧
  (isEncryptedContainer e = true →
     (isAccessible e = true ↔
        has_cleartext_sibling e ∧ Device_isMounted e (clearTextPath e) = true)) ∧
  (isEncryptedContainer e = true → ¬ has_cleartext_sibling e →
     isAccessible e = false ∧ filePath e = []).
Proof.
  unfold isAccessible, filePath, isLuksDevice, qstring_eqb.
  pose proof (clearTextPath_not_root e) as Hroot.
  rewrite (bool_decide_eq_false_2 _ Hroot), orb_false_r.
  rewrite <- clearTextPath_nonempty_iff.
  split; [by intros ->|]. split.
  - intros ->. destruct (clearTextPath e); simpl.
    + split; [done | by intros [? _]].
    + split; [by intros ? | by intros [_ ?]].
  - intros -> Hnone. destruct (clearTextPath e); [done|]. by destruct Hnone.
Qed.

(** The unlocked and mounted container is accessible. *)
Lemma isAccessible_through_cleartext_witness :
  isAccessible (unlocked_env true) = true.
Proof.
  pose proof (isAccessible_through_cleartext (unlocked_env true)) as (_ & Hluks & _).
  apply Hluks; [reflexivity|]. split.
  - apply clearTextPath_nonempty_iff. vm_compute. discriminate.
  - vm_compute. reflexivity.
Defined.

(** X20: unlocking and mounting a locked encrypted container, end to end:
    [setup()] opens the passphrase dialog, a non-empty passphrase sends
    Unlock, the reply to Unlock (the container not yet accessible) sends
    Mount, and the reply to Mount (the container now accessible) ends the
    setup.  Exactly these two calls go to the storage service, in this
    order, the end of the setup is broadcast once, both flags end up
    clear and the cached accessibility true, with [accessibilityChanged]
    emitted if it was false before. *)
Theorem unlock_then_mount (e1 e2 e3 e4 : Env) (passphrase : QString)
    (s : StorageAccess) :
  m_setupInProgress s = false → m_teardownInProgress s = false →
  isEncryptedContainer e1 = true → ¬ has_cleartext_sibling e1 →
  showPassphraseDialog_isValid e1 = true →
  passphrase ≠ [] →
  isEncryptedContainer e3 = true → isAccessible e3 = false →
  isAccessible e4 = true →
  let out := history [(e1, Do_setup); (e2, Do_passphraseReply passphrase);
                      (e3, Do_slotDBusReply); (e4, Do_slotDBusReply)] s in
  m_setupInProgress (final out) = false ∧
  m_teardownInProgress (final out) = false ∧
  m_isAccessible (final out) = true ∧
  occurrences is_BroadcastActionDone (trace out) = 1%nat ∧
  (∃ options,
     storage_calls (trace out) =
       [Call_withCallback
          (createMethodCall UD2_DBUS_SERVICE (udi e2) UD2_DBUS_INTERFACE_ENCRYPTED
             (QLatin1String "Unlock") [Arg_QString passphrase; Arg_QVariantMap ∅])
          DefaultTimeout;
        Call_withCallback
          (createMethodCall UD2_DBUS_SERVICE (target_path e3)
             UD2_DBUS_INTERFACE_FILESYSTEM (QLatin1String "Mount")
             [Arg_QVariantMap options])
          DefaultTimeout]) ∧
  (m_isAccessible s = false → Emit_accessibilityChanged true (udi e4) ∈ trace out).
Proof.
  intros Hsetup Hteardown Hluks Hnone%clearTextPath_empty_iff Hdialog Hpass
    Hluks3 Hacc3 Hacc4.
  cbv zeta.
  (* setup: the dialog is opened *)
  pose proof (setup_idle e1 s Hsetup Hteardown) as Hstep1.
  rewrite Hluks, Hnone in Hstep1. cbn [andb isEmpty] in Hstep1.
  rewrite requestPassphrase_outcome, Hdialog in Hstep1. cbv zeta in Hstep1.
  set (s1 := set_passphraseRequested true _) in Hstep1.
  (* the passphrase: Unlock goes out *)
  pose proof (passphraseReply_unlock e2 passphrase s1 eq_refl Hpass) as Hstep2.
  set (s2 := set_passphraseRequested false s1) in Hstep2.
  (* the reply to Unlock: Mount goes out *)
  pose proof (slotDBusReply_during_setup e3 s2 eq_refl) as Hstep3.
  rewrite Hluks3, Hacc3 in Hstep3. cbn [andb negb] in Hstep3.
  destruct (mount_outcome e3 s2) as [options Hmount]. cbv zeta in Hmount.
  rewrite Hmount in Hstep3. unfold trace in Hstep3. cbn [snd] in Hstep3.
  (* the reply to Mount: the setup ends *)
  pose proof (slotDBusReply_during_setup e4 s2 eq_refl) as Hstep4.
  rewrite Hacc4, andb_false_r, checkAccessibility_outcome in Hstep4.
  unfold trace in Hstep4. cbn [snd] in Hstep4. rewrite Hacc4 in Hstep4.
  (* the whole history *)
  cbn [history occur]. unfold mbind, prog_bind, mret, prog_ret.
  rewrite Hstep1. cbv beta iota. rewrite Hstep2. cbv beta iota.
  rewrite Hstep3. cbv beta iota. rewrite Hstep4. cbv beta iota.
  unfold final, trace, storage_calls. cbn [fst snd].
  assert (Hcached : m_isAccessible (set_setupInProgress false s2) = m_isAccessible s)
    by done.
  rewrite Hcached.
  split; [done|]. split; [done|]. split; [done|].
  destruct (m_isAccessible s); cbn [eqb].
  - split; [done|]. split; [by exists options | done].
  - split; [done|]. split; [by exists options|].
    intros _. repeat first [apply list_elem_of_here | apply list_elem_of_further].
Qed.

(** The locked container [sdb1], unlocked with a passphrase and mounted. *)
Lemma unlock_then_mount_witness :
  let out := history [(locked_env, Do_setup);
                      (locked_env, Do_passphraseReply (QLatin1String "hunter2"));
                      (unlocked_env false, Do_slotDBusReply);
                      (unlocked_env true, Do_slotDBusReply)] idle in
  m_setupInProgress (final out) = false ∧
  m_isAccessible (final out) = true ∧
  occurrences is_BroadcastActionDone (trace out) = 1%nat.
Proof.
  pose proof (unlock_then_mount locked_env locked_env (unlocked_env false)
                (unlocked_env true) (QLatin1String "hunter2") idle) as Hflow.
  destruct Hflow as (Hidle & _ & Hacc & Hdone & _).
  - reflexivity.
  - reflexivity.
  - reflexivity.
  - apply clearTextPath_empty_iff. vm_compute. reflexivity.
  - reflexivity.
  - vm_compute. discriminate.
  - reflexivity.
  - vm_compute. reflexivity.
  - vm_compute. reflexivity.
  - exact (conj Hidle (conj Hacc Hdone)).
Defined.

(** X21: tearing down an unlocked encrypted container, end to end:
    [teardown()] sends Unmount to the cleartext volume, the reply to
    Unmount (the cleartext volume still there) sends Lock to the
    container, and the reply to Lock (no cleartext volume left) ends the
    teardown.  These two calls go out in this order, followed only by the
    eject / power-off attempt on the drive; the end of the teardown is
    broadcast once and both flags end up clear. *)
Theorem unmount_then_lock (e1 e2 e3 : Env) (s : StorageAccess) :
  m_setupInProgress s = false → m_teardownInProgress s = false →
  isEncryptedContainer e1 = true → has_cleartext_sibling e1 →
  isEncryptedContainer e2 = true → has_cleartext_sibling e2 →
  ¬ has_cleartext_sibling e3 →
  let out := history [(e1, Do_teardown); (e2, Do_slotDBusReply);
                      (e3, Do_slotDBusReply)] s in
  m_setupInProgress (final out) = false ∧
  m_teardownInProgress (final out) = false ∧
  occurrences is_BroadcastActionDone (trace out) = 1%nat ∧
  storage_calls (trace out) =
    Call_withCallback
      (createMethodCall UD2_DBUS_SERVICE (clearTextPath e1)
         UD2_DBUS_INTERFACE_FILESYSTEM (QLatin1String "Unmount") [Arg_QVariantMap ∅])
      s_unmountTimeout ::
    Call_withCallback
      (createMethodCall UD2_DBUS_SERVICE (udi e2) UD2_DBUS_INTERFACE_ENCRYPTED
         (QLatin1String "Lock") [Arg_QVariantMap ∅])
      DefaultTimeout ::
    trace (eject_or_powerOff e3 (drivePath e3) (set_teardownInProgress true s)).
Proof.
  intros Hsetup Hteardown Hluks1 Hsib1 Hluks2 Hsib2%clearTextPath_nonempty_iff
    Hnone3%clearTextPath_empty_iff.
  cbv zeta.
  (* teardown: Unmount goes to the cleartext volume *)
  pose proof (teardown_idle e1 s Hsetup Hteardown) as Hstep1. cbv zeta in Hstep1.
  destruct (target_path_cases e1) as [(_ & _ & Htarget) | ([Hplain | Hno] & _)];
    [|congruence | done].
  rewrite Htarget in Hstep1.
  set (s1 := set_teardownInProgress true s) in *.
  (* the reply to Unmount: Lock goes to the container *)
  pose proof (slotDBusReply_during_teardown e2 s1 Hsetup eq_refl) as Hstep2.
  rewrite Hluks2 in Hstep2.
  destruct (clearTextPath e2) as [|c path] eqn:Hct2; [done|]. cbn [isEmpty] in Hstep2.
  (* the reply to Lock: the teardown ends *)
  pose proof (slotDBusReply_during_teardown e3 s1 Hsetup eq_refl) as Hstep3.
  rewrite Hnone3 in Hstep3. cbn [isEmpty] in Hstep3.
  pose proof (eject_or_powerOff_outcome e3 (drivePath e3) s1) as Hattempt.
  set (attempt := trace (eject_or_powerOff e3 (drivePath e3) s1)) in *.
  assert (Hcalls : attempt = [] ∨ ∃ msg, attempt = [Call_NoBlock msg]).
  { unfold attempt, eject_or_powerOff, trace, emit, mret, prog_ret.
    repeat destruct (_ && _); cbn [snd]; by eauto. }
  pose proof (checkAccessibility_trace_cases e3 (set_teardownInProgress false s1))
    as Hevents.
  set (events := trace (checkAccessibility e3 (set_teardownInProgress false s1))) in *.
  clearbody events attempt.
  (* the whole history *)
  cbn [history occur]. unfold mbind, prog_bind, mret, prog_ret.
  rewrite Hstep1. cbv beta iota. rewrite Hstep2. cbv beta iota.
  rewrite Hstep3. cbv beta iota.
  unfold final, trace, storage_calls. cbn [fst snd].
  split; [done|]. split; [done|].
  destruct Hevents as [-> | ->]; destruct Hcalls as [-> | [msg ->]]; by split.
Qed.

(** The unlocked container [sdb1], unmounted and locked again. *)
Lemma unmount_then_lock_witness :
  let out := history [(unlocked_env true, Do_teardown);
                      (unlocked_env false, Do_slotDBusReply);
                      (locked_env, Do_slotDBusReply)] idle in
  m_teardownInProgress (final out) = false ∧
  occurrences is_BroadcastActionDone (trace out) = 1%nat.
Proof.
  pose proof (unmount_then_lock (unlocked_env true) (unlocked_env false) locked_env idle)
    as Hflow.
  destruct Hflow as (_ & Hidle & Hdone & _).
  - reflexivity.
  - reflexivity.
  - reflexivity.
  - apply clearTextPath_nonempty_iff. vm_compute. discriminate.
  - reflexivity.
  - apply clearTextPath_nonempty_iff. vm_compute. discriminate.
  - apply clearTextPath_empty_iff. vm_compute. reflexivity.
  - exact (conj Hidle Hdone).
Defined.

End UDisks2Further.
